(** * python_to_sql_converter: a shallow embedding and its verification

    The program under study is [python_to_sql_converter.py]: one dispatch
    function [python_to_sql] that tries six regular-expression templates in
    order on the stripped input, the helper [_replace_series_refs] that
    rewrites a filter condition, and the helper [_clean_quotes].

    Strings are lists of characters.  The embedding covers the ASCII
    fragment of Python's [str]: a character is a code point below 128,
    carried by Rocq's [ascii]; on that fragment [\s], [\w], [.] and
    [str.upper] are the classes and the map written out below.  The codes
    128..255 of [ascii] stand for no Python character; the classes treat
    them as neither blank nor word characters and [upper] leaves them
    alone.

    Python's [re] is embedded as a backtracking matcher in
    continuation-passing style over a small regex syntax, with the
    priorities of [re]: a greedy quantifier tries the longest run first,
    an alternative its left branch first, an optional group its body
    first.  The six templates are transcribed from the source one token
    at a time.  What Python can raise on the way (a tuple unpacked to the
    wrong number of names, a method called on [None]) is kept in the
    result type.

    The file has two parts.  The first holds the definitions: strings,
    the matcher, the program, then the texts the templates are written
    for, as records that generate them, and the description of the
    normalizer in its own words.  The second holds the lemmas, and ends
    with one theorem per claim. *)

From Stdlib Require Import List Ascii Bool Arith Lia.
Import ListNotations.

(* ================================================================== *)
(** ** Strings *)
(* ================================================================== *)

Definition string := list ascii.

(** String literals denote lists of characters. *)
Inductive literal := LNil | LCons (a : ascii) (l : literal).

Fixpoint literal_of_bytes (l : list Byte.byte) : literal :=
  match l with
  | [] => LNil
  | b :: r => LCons (ascii_of_byte b) (literal_of_bytes r)
  end.

Fixpoint bytes_of_literal (l : literal) : list Byte.byte :=
  match l with
  | LNil => []
  | LCons a r => byte_of_ascii a :: bytes_of_literal r
  end.

Declare Scope str_scope.
Delimit Scope str_scope with str.
Bind Scope str_scope with string.
#[warnings="-via-type-remapping,-via-type-mismatch"]
String Notation string literal_of_bytes bytes_of_literal
  (via literal mapping [[nil] => LNil, [cons] => LCons]) : str_scope.
Open Scope str_scope.
Open Scope list_scope.

(** The double quote and the line feed, which a literal cannot hold. *)
Definition dquote : ascii := "034"%char.
Definition squote : ascii := "'"%char.
Definition newline : ascii := "010"%char.

Definition code_of (c : ascii) : nat := nat_of_ascii c.

Definition between (lo hi n : nat) : bool := (lo <=? n) && (n <=? hi).

(** [str.isspace] and [\s] below 128: TAB..CR, FS..US and the space. *)
Definition is_space (c : ascii) : bool :=
  let n := code_of c in between 9 13 n || between 28 32 n.

(** [\w] below 128: letters, digits and the underscore. *)
Definition is_word (c : ascii) : bool :=
  let n := code_of c in
  between 48 57 n || between 65 90 n || between 97 122 n || (n =? 95).

(** [.] without DOTALL: anything but the line feed. *)
Definition is_dot (c : ascii) : bool := negb (Ascii.eqb c newline).

(** The quote class of the templates: a single or a double quote. *)
Definition is_quote (c : ascii) : bool :=
  Ascii.eqb c squote || Ascii.eqb c dquote.

(** [str.upper] below 128. *)
Definition upper_char (c : ascii) : ascii :=
  let n := code_of c in
  if between 97 122 n then ascii_of_nat (n - 32) else c.

Definition upper (s : string) : string := map upper_char s.

Fixpoint str_eqb (a b : string) : bool :=
  match a, b with
  | [], [] => true
  | x :: a', y :: b' => Ascii.eqb x y && str_eqb a' b'
  | _, _ => false
  end.

(** [s.startswith(p)]. *)
Fixpoint startswith (p s : string) : bool :=
  match p, s with
  | [], _ => true
  | x :: p', y :: s' => Ascii.eqb x y && startswith p' s'
  | _ :: _, [] => false
  end.

(** [s.endswith(p)]. *)
Definition endswith (p s : string) : bool := startswith (rev p) (rev s).

(** [s.lstrip()], [s.rstrip()] and [s.strip()]. *)
Fixpoint lstrip (s : string) : string :=
  match s with
  | c :: s' => if is_space c then lstrip s' else s
  | [] => []
  end.

Fixpoint rstrip (s : string) : string :=
  match s with
  | [] => []
  | c :: s' =>
      match rstrip s' with
      | [] => if is_space c then [] else [c]
      | r => c :: r
      end
  end.

Definition strip (s : string) : string := rstrip (lstrip s).

(** The left-to-right scan behind [str.replace] and [re.sub].  [find t]
    tells whether an occurrence starts at the head of [t], and then gives
    its replacement and the text after it.  Occurrences do not overlap:
    [skip] counts the characters of the last one still to be passed
    over. *)
Fixpoint scan (find : string -> option (string * string)) (skip : nat)
         (s : string) : string :=
  match s with
  | [] => []
  | c :: s' =>
      match skip with
      | S n => scan find n s'
      | O =>
          match find s with
          | Some (new, rest) =>
              new ++ scan find (length s - length rest - 1) s'
          | None => c :: scan find 0 s'
          end
      end
  end.

(** An occurrence of the literal [old] at the head of [s]. *)
Definition occurrence (old new s : string) : option (string * string) :=
  if startswith old s then Some (new, skipn (length old) s) else None.

(** [s.replace(old, new)].  With an empty [old] Python puts [new] before
    every character and at the end. *)
Definition str_replace (old new s : string) : string :=
  match old with
  | [] => new ++ flat_map (fun c => c :: new) s
  | _ :: _ => scan (occurrence old new) 0 s
  end.

(* ================================================================== *)
(** ** Exceptions *)
(* ================================================================== *)

Inductive exn := ValueError | AttributeError | TypeError.

Inductive outcome (A : Type) : Type :=
| Returns (a : A)
| Raises (e : exn).

Arguments Returns {A} a.
Arguments Raises {A} e.

Definition bind {A B} (c : outcome A) (f : A -> outcome B) : outcome B :=
  match c with
  | Returns a => f a
  | Raises e => Raises e
  end.

Notation "x <- c ;; k" := (bind c (fun x => k))
  (at level 61, c at next level, right associativity).
Notation "' p <- c ;; k" := (bind c (fun x => let 'p := x in k))
  (at level 61, p pattern, c at next level, right associativity).

(* ================================================================== *)
(** ** The regex matcher *)
(* ================================================================== *)

(** The syntax the six templates and the series-reference pattern need.
    Quantifiers only ever apply to a one-character class there, so
    [Star] takes a class; [p+] is [p] followed by [p*]. *)
Inductive regex :=
| Eps
| Chr (c : ascii)
| Cls (p : ascii -> bool)
| Star (p : ascii -> bool)
| Seq (r1 r2 : regex)
| Alt (r1 r2 : regex)
| Opt (r : regex)
| Grp (n : nat) (r : regex)
| Eos.

Infix ">>" := Seq (at level 62, right associativity).

Definition Plus (p : ascii -> bool) : regex := Cls p >> Star p.

Fixpoint lit (l : string) : regex :=
  match l with
  | [] => Eps
  | c :: l' => Chr c >> lit l'
  end.

(** A value held by a group: a string, or Python's [None] for a group
    that took no part in the match. *)
Definition pyval := option string.
Definition groups_t := list pyval.

(** Group [n] (numbered from 1, as in [m.group(n)]) lives at index
    [n - 1] of the tuple [m.groups()]. *)
Fixpoint set_nth (i : nat) (v : pyval) (g : groups_t) : groups_t :=
  match g, i with
  | [], _ => []
  | _ :: g', O => v :: g'
  | x :: g', S j => x :: set_nth j v g'
  end.

Definition set_group (n : nat) (v : string) (g : groups_t) : groups_t :=
  match n with
  | O => g
  | S i => set_nth i (Some v) g
  end.

Definition result := (groups_t * string)%type.

(** A continuation of the matcher. *)
Definition kont := string -> groups_t -> option result.

(** Greedy [p*]: take characters while [p] holds; on the way back offer
    every shorter run to the continuation. *)
Fixpoint star_k (p : ascii -> bool) (k : string -> option result)
         (s : string) : option result :=
  match s with
  | c :: s' =>
      if p c
      then match star_k p k s' with
           | Some r => Some r
           | None => k s
           end
      else k s
  | [] => k s
  end.

(** [$] without MULTILINE: the end of the string, or just before a line
    feed that ends it. *)
Definition at_end (s : string) : bool :=
  match s with
  | [] => true
  | [c] => Ascii.eqb c newline
  | _ => false
  end.

(** [run r s g k]: match [r] at the head of [s] with groups [g]; the
    continuation receives what is left of [s] and the groups.  The text
    of a group is what its body consumed. *)
Fixpoint run (r : regex) (s : string) (g : groups_t) (k : kont)
  : option result :=
  match r with
  | Eps => k s g
  | Chr c =>
      match s with
      | x :: s' => if Ascii.eqb x c then k s' g else None
      | [] => None
      end
  | Cls p =>
      match s with
      | x :: s' => if p x then k s' g else None
      | [] => None
      end
  | Star p => star_k p (fun s' => k s' g) s
  | Seq r1 r2 => run r1 s g (fun s' g' => run r2 s' g' k)
  | Alt r1 r2 =>
      match run r1 s g k with
      | Some x => Some x
      | None => run r2 s g k
      end
  | Opt r1 =>
      match run r1 s g k with
      | Some x => Some x
      | None => k s g
      end
  | Grp n r1 =>
      run r1 s g
          (fun s' g' => k s' (set_group n (firstn (length s - length s') s) g'))
  | Eos => if at_end s then k s g else None
  end.

Fixpoint ngroups (r : regex) : nat :=
  match r with
  | Seq r1 r2 | Alt r1 r2 => Nat.max (ngroups r1) (ngroups r2)
  | Opt r1 => ngroups r1
  | Grp n r1 => Nat.max n (ngroups r1)
  | _ => 0
  end.

(** [re.match(r, s)]: anchored at the start of [s], not at its end.  The
    result pairs [m.groups()] with the text after the match. *)
Definition re_match (r : regex) (s : string) : option result :=
  run r s (repeat None (ngroups r)) (fun s' g => Some (g, s')).

Definition groups (m : result) : groups_t := fst m.

(** [m.group(n)] for [n >= 1]. *)
Definition group (m : result) (n : nat) : pyval := nth (n - 1) (groups m) None.

(** [re.sub(r, repl, s)] for a pattern that cannot match the empty
    string: where [r] matches, the replacement is emitted and the scan
    resumes after the match; elsewhere one character is copied. *)
Definition re_sub (r : regex) (repl : result -> string) (s : string) : string :=
  scan (fun t => match re_match r t with
                 | Some m => Some (repl m, snd m)
                 | None => None
                 end) 0 s.

(* ================================================================== *)
(** ** The program *)
(* ================================================================== *)

(** [FUNC_MAP], a dict with six string keys, as an association list. *)
Definition FUNC_MAP : list (string * string) :=
  [ ("mean", "AVG");
    ("sum", "SUM");
    ("count", "COUNT");
    ("min", "MIN");
    ("max", "MAX");
    ("median", "MEDIAN") ].

(** [d.get(key, default)]. *)
Fixpoint dict_get (d : list (string * string)) (key default : string) : string :=
  match d with
  | [] => default
  | (k, v) :: d' => if str_eqb k key then v else dict_get d' key default
  end.

(** [FUNC_MAP.get(func, func.upper())] for a string [func]. *)
Definition sql_func (func : string) : string :=
  dict_get FUNC_MAP func (upper func).

(** The same expression for a group value: Python evaluates
    [func.upper()] before the lookup, and [None] has no [upper]. *)
Definition sql_func_of (func : pyval) : outcome string :=
  match func with
  | Some f => Returns (sql_func f)
  | None => Raises AttributeError
  end.

(** A group value inside an f-string. *)
Definition fmt (v : pyval) : string :=
  match v with
  | Some s => s
  | None => "None"
  end.

(** [a, b, c = t] and [a, b = t]. *)
Definition unpack3 (t : groups_t) : outcome (pyval * pyval * pyval) :=
  match t with
  | [a; b; c] => Returns (a, b, c)
  | _ => Raises ValueError
  end.

Definition unpack2 (t : groups_t) : outcome (pyval * pyval) :=
  match t with
  | [a; b] => Returns (a, b)
  | _ => Raises ValueError
  end.

(** [v == s] for a group value [v] and a string [s]. *)
Definition pyval_eqb (v : pyval) (s : string) : bool :=
  match v with
  | Some a => str_eqb a s
  | None => false
  end.

(** [_clean_quotes]: [s[1:-1]] drops the first and the last character. *)
Definition _clean_quotes (s : string) : string :=
  let s := strip s in
  if (startswith "'" s && endswith "'" s)
     || (startswith [dquote] s && endswith [dquote] s)
  then removelast (tl s)
  else s.

(** The pattern of [_replace_series_refs]: df, an opening bracket, a
    quote, [(\w+)], a quote, a closing bracket. *)
Definition pat_series : regex :=
  lit "df[" >> Cls is_quote >> Grp 1 (Plus is_word) >> Cls is_quote >> lit "]".

(** The replacement template [\1]. *)
Definition backref1 (m : result) : string := fmt (group m 1).

Definition replace_series_refs (condition : string) : string :=
  let condition := re_sub pat_series backref1 condition in
  let condition := str_replace "==" "=" condition in
  let condition := str_replace "&" "AND" condition in
  let condition := str_replace "|" "OR" condition in
  let condition := str_replace "df." "" condition in
  condition.

(** [_replace_series_refs] applied to a group value: [re.sub] rejects
    [None]. *)
Definition _replace_series_refs (condition : pyval) : outcome string :=
  match condition with
  | Some c => Returns (replace_series_refs c)
  | None => Raises TypeError
  end.

(** Pieces shared by several templates.  [bracket_col n] is an opening
    bracket, blanks, a quoted [(\w+)] as group [n], blanks, a closing
    bracket; [call_tail n] is blanks, a dot, blanks, [(\w+)] as group
    [n], blanks and an empty pair of parentheses with blanks inside. *)
Definition quoted (n : nat) : regex :=
  Cls is_quote >> Grp n (Plus is_word) >> Cls is_quote.

Definition bracket_col (n : nat) : regex :=
  lit "[" >> Star is_space >> quoted n >> Star is_space >> lit "]".

Definition call_tail (n : nat) : regex :=
  Star is_space >> lit "." >> Star is_space >> Grp n (Plus is_word) >>
  Star is_space >> lit "(" >> Star is_space >> lit ")".

(** 1) the groupby template. *)
Definition pat_groupby : regex :=
  lit "df.groupby(" >> Star is_space >> quoted 1 >> Star is_space >>
  lit ")" >> Star is_space >> bracket_col 2 >> call_tail 3.

(** 2) the sort_values template; the [ascending] argument is an optional
    non-capturing group around group 2. *)
Definition pat_sort : regex :=
  lit "df.sort_values(" >> Star is_space >> quoted 1 >>
  Opt (Star is_space >> lit "," >> Star is_space >> lit "ascending" >>
       Star is_space >> lit "=" >> Star is_space >>
       Grp 2 (Alt (lit "True") (lit "False"))) >>
  Star is_space >> lit ")".

(** 3) the chained filter and aggregate template. *)
Definition pat_chained : regex :=
  lit "df[" >> Grp 1 (Plus is_dot) >> lit "]" >> Star is_space >>
  bracket_col 2 >> call_tail 3.

(** 4) the filter template. *)
Definition pat_filter : regex :=
  lit "df[" >> Grp 1 (Plus is_dot) >> lit "]" >> Star is_space >> Eos.

(** 5) the column aggregate template: no blanks inside the brackets. *)
Definition pat_col_agg : regex :=
  lit "df[" >> quoted 1 >> lit "]" >> call_tail 2.

(** 6) the column select template. *)
Definition pat_col : regex :=
  lit "df[" >> quoted 1 >> lit "]" >> Star is_space >> Eos.

Definition ERROR_MSG : string :=
  "ERROR: Unsupported or unrecognized Python pattern. Please try a simpler expression.".

Definition python_to_sql (python_code table_name : string) : outcome string :=
  let code := strip python_code in
  match re_match pat_groupby code with
  | Some m =>
      '(gcol, target_col, func) <- unpack3 (groups m) ;;
      sql_func <- sql_func_of func ;;
      Returns ("SELECT " ++ fmt gcol ++ ", " ++ sql_func ++ "(" ++
               fmt target_col ++ ") FROM " ++ table_name ++
               " GROUP BY " ++ fmt gcol ++ ";")
  | None =>
  match re_match pat_sort code with
  | Some m =>
      '(col, asc) <- unpack2 (groups m) ;;
      let order := if pyval_eqb asc "False" then "DESC" else "ASC" in
      Returns ("SELECT * FROM " ++ table_name ++ " ORDER BY " ++ fmt col ++
               " " ++ order ++ ";")
  | None =>
  match re_match pat_chained code with
  | Some m =>
      '(cond_raw, target_col, func) <- unpack3 (groups m) ;;
      cond <- _replace_series_refs cond_raw ;;
      sql_func <- sql_func_of func ;;
      Returns ("SELECT " ++ sql_func ++ "(" ++ fmt target_col ++ ") FROM " ++
               table_name ++ " WHERE " ++ cond ++ ";")
  | None =>
  match re_match pat_filter code with
  | Some m =>
      let cond_raw := group m 1 in
      cond <- _replace_series_refs cond_raw ;;
      Returns ("SELECT * FROM " ++ table_name ++ " WHERE " ++ cond ++ ";")
  | None =>
  match re_match pat_col_agg code with
  | Some m =>
      '(col, func) <- unpack2 (groups m) ;;
      sql_func <- sql_func_of func ;;
      Returns ("SELECT " ++ sql_func ++ "(" ++ fmt col ++ ") FROM " ++
               table_name ++ ";")
  | None =>
  match re_match pat_col code with
  | Some m =>
      let col := group m 1 in
      Returns ("SELECT " ++ fmt col ++ " FROM " ++ table_name ++ ";")
  | None => Returns ERROR_MSG
  end end end end end end.

(** The default of [table_name]. *)
Definition employees : string := "employees".

(* ================================================================== *)
(** ** The texts the templates are written for *)
(* ================================================================== *)

(** Runs of blanks, identifiers, and a condition as the filter templates
    capture it: a non-empty text on one line. *)
Definition blank (ws : string) : bool := forallb is_space ws.

Definition ident (w : string) : bool :=
  match w with
  | [] => false
  | _ :: _ => forallb is_word w
  end.

Definition one_line (c : string) : bool :=
  match c with
  | [] => false
  | _ :: _ => forallb is_dot c
  end.

Definition rbracket : ascii := "]"%char.

Definition no_rbracket (s : string) : bool :=
  forallb (fun c => negb (Ascii.eqb c rbracket)) s.

(** A quoted identifier; each of the two quotes is any of the two quote
    characters. *)
Record quoted_name :=
  Quoted { q_open : ascii; q_name : string; q_close : ascii }.

Definition quoted_ok (q : quoted_name) : bool :=
  is_quote (q_open q) && ident (q_name q) && is_quote (q_close q).

Definition quoted_text (q : quoted_name) (rest : string) : string :=
  [q_open q] ++ q_name q ++ [q_close q] ++ rest.

(** A column in brackets, with blanks around the quoted name. *)
Record column :=
  Column { c_pre : string; c_quoted : quoted_name; c_post : string }.

Definition column_ok (c : column) : bool :=
  blank (c_pre c) && quoted_ok (c_quoted c) && blank (c_post c).

Definition column_text (c : column) (rest : string) : string :=
  "[" ++ c_pre c ++ quoted_text (c_quoted c) (c_post c ++ "]" ++ rest).

Definition column_name (c : column) : string := q_name (c_quoted c).

(** A call of an aggregate: blanks, a dot, blanks, the name, blanks and
    a pair of parentheses with blanks inside. *)
Record call :=
  Call { f_pre : string; f_mid : string; f_name : string;
         f_post : string; f_args : string }.

Definition call_ok (c : call) : bool :=
  blank (f_pre c) && blank (f_mid c) && ident (f_name c) &&
  blank (f_post c) && blank (f_args c).

Definition call_text (c : call) (rest : string) : string :=
  f_pre c ++ "." ++ f_mid c ++ f_name c ++ f_post c ++ "(" ++ f_args c ++
  ")" ++ rest.

(** 1) a groupby expression, followed by [rest]. *)
Record groupby_expr :=
  Groupby { gb_pre : string; gb_key : quoted_name; gb_post : string;
            gb_gap : string; gb_col : column; gb_call : call }.

Definition groupby_ok (e : groupby_expr) : bool :=
  blank (gb_pre e) && quoted_ok (gb_key e) && blank (gb_post e) &&
  blank (gb_gap e) && column_ok (gb_col e) && call_ok (gb_call e).

Definition groupby_text (e : groupby_expr) (rest : string) : string :=
  "df.groupby(" ++ gb_pre e ++
  quoted_text (gb_key e)
    (gb_post e ++ ")" ++ gb_gap e ++
     column_text (gb_col e) (call_text (gb_call e) rest)).

Definition groupby_sql (e : groupby_expr) (table : string) : string :=
  "SELECT " ++ q_name (gb_key e) ++ ", " ++ sql_func (f_name (gb_call e)) ++
  "(" ++ column_name (gb_col e) ++ ") FROM " ++ table ++ " GROUP BY " ++
  q_name (gb_key e) ++ ";".

(** 2) a sort expression.  The [ascending] argument is left out, or
    given with blanks around the comma, the keyword, the equals sign and
    the value. *)
Inductive ascending :=
| Omitted
| Given (w1 w2 w3 w4 : string) (v : bool).

Definition ascending_ok (a : ascending) : bool :=
  match a with
  | Omitted => true
  | Given w1 w2 w3 w4 _ => blank w1 && blank w2 && blank w3 && blank w4
  end.

Definition bool_text (v : bool) : string := if v then "True" else "False".

Definition ascending_text (a : ascending) (rest : string) : string :=
  match a with
  | Omitted => rest
  | Given w1 w2 w3 w4 v =>
      w1 ++ "," ++ w2 ++ "ascending" ++ w3 ++ "=" ++ w4 ++ bool_text v ++ rest
  end.

Definition ascending_value (a : ascending) : pyval :=
  match a with
  | Omitted => None
  | Given _ _ _ _ v => Some (bool_text v)
  end.

Record sort_expr :=
  Sort { so_pre : string; so_col : quoted_name; so_asc : ascending;
         so_post : string }.

Definition sort_ok (e : sort_expr) : bool :=
  blank (so_pre e) && quoted_ok (so_col e) && ascending_ok (so_asc e) &&
  blank (so_post e).

Definition sort_text (e : sort_expr) (rest : string) : string :=
  "df.sort_values(" ++ so_pre e ++
  quoted_text (so_col e) (ascending_text (so_asc e) (so_post e ++ ")" ++ rest)).

Definition sort_order (a : ascending) : string :=
  match a with
  | Given _ _ _ _ false => "DESC"
  | _ => "ASC"
  end.

Definition sort_sql (e : sort_expr) (table : string) : string :=
  "SELECT * FROM " ++ table ++ " ORDER BY " ++ q_name (so_col e) ++ " " ++
  sort_order (so_asc e) ++ ";".

(** The body of the optional group of template 2. *)
Definition ascending_body : regex :=
  Star is_space >> lit "," >> Star is_space >> lit "ascending" >>
  Star is_space >> lit "=" >> Star is_space >>
  Grp 2 (Alt (lit "True") (lit "False")).

(** 3) a chained filter and aggregate. *)
Record chained_expr :=
  Chained { ch_cond : string; ch_gap : string; ch_col : column;
            ch_call : call }.

Definition chained_ok (e : chained_expr) : bool :=
  one_line (ch_cond e) && blank (ch_gap e) && column_ok (ch_col e) &&
  call_ok (ch_call e).

Definition chained_text (e : chained_expr) (rest : string) : string :=
  "df[" ++ ch_cond e ++ "]" ++ ch_gap e ++
  column_text (ch_col e) (call_text (ch_call e) rest).

Definition chained_sql (e : chained_expr) (table : string) : string :=
  "SELECT " ++ sql_func (f_name (ch_call e)) ++ "(" ++ column_name (ch_col e) ++
  ") FROM " ++ table ++ " WHERE " ++ replace_series_refs (ch_cond e) ++ ";".

(** 5) a column aggregate: no blanks inside the brackets. *)
Record col_agg_expr := ColAgg { ca_col : quoted_name; ca_call : call }.

Definition col_agg_ok (e : col_agg_expr) : bool :=
  quoted_ok (ca_col e) && call_ok (ca_call e).

Definition col_agg_text (e : col_agg_expr) (rest : string) : string :=
  "df[" ++ quoted_text (ca_col e) ("]" ++ call_text (ca_call e) rest).

Definition col_agg_sql (e : col_agg_expr) (table : string) : string :=
  "SELECT " ++ sql_func (f_name (ca_call e)) ++ "(" ++ q_name (ca_col e) ++
  ") FROM " ++ table ++ ";".

(** 4) a filter whose condition holds no closing bracket, followed by
    blanks. *)
Definition filter_text (cond tail : string) : string :=
  "df[" ++ cond ++ "]" ++ tail.

(** The same expressions without blanks and in single quotes. *)
Definition tight_quoted (q : quoted_name) : quoted_name :=
  Quoted squote (q_name q) squote.

Definition tight_column (c : column) : column :=
  Column [] (tight_quoted (c_quoted c)) [].

Definition tight_call (c : call) : call := Call [] [] (f_name c) [] [].

Definition tight_ascending (a : ascending) : ascending :=
  match a with
  | Omitted => Omitted
  | Given _ _ _ _ v => Given [] " " [] [] v
  end.

Definition tight_groupby (e : groupby_expr) : groupby_expr :=
  Groupby [] (tight_quoted (gb_key e)) [] [] (tight_column (gb_col e))
          (tight_call (gb_call e)).

Definition tight_sort (e : sort_expr) : sort_expr :=
  Sort [] (tight_quoted (so_col e)) (tight_ascending (so_asc e)) [].

Definition tight_chained (e : chained_expr) : chained_expr :=
  Chained (ch_cond e) [] (tight_column (ch_col e)) (tight_call (ch_call e)).

Definition tight_col_agg (e : col_agg_expr) : col_agg_expr :=
  ColAgg (tight_quoted (ca_col e)) (tight_call (ca_call e)).

(** No template recognises [code]. *)
Definition unrecognized (code : string) : Prop :=
  re_match pat_groupby code = None /\ re_match pat_sort code = None /\
  re_match pat_chained code = None /\ re_match pat_filter code = None /\
  re_match pat_col_agg code = None /\ re_match pat_col code = None.

(** The keys of [FUNC_MAP]. *)
Definition known_funcs : list string := map fst FUNC_MAP.

(* ================================================================== *)
(** ** Notions used in the proofs *)
(* ================================================================== *)

(** A run of [p] cannot go on into [s]. *)
Definition halts (p : ascii -> bool) (s : string) : Prop :=
  match s with
  | [] => True
  | d :: _ => p d = false
  end.

(** Group [n] holds a string. *)
Definition bound (n : nat) (g : groups_t) : Prop :=
  exists i v, n = S i /\ nth_error g i = Some (Some v).

(** The groups every match of [r] sets: those not under an alternative
    or an optional group. *)
Fixpoint binds (r : regex) : list nat :=
  match r with
  | Grp n r1 => n :: binds r1
  | Seq r1 r2 => binds r1 ++ binds r2
  | _ => []
  end.

(** What follows [(.+)] in templates 3 and 4 opens with a closing
    bracket. *)
Definition wants_rbracket (K : kont) : Prop :=
  (forall g, K [] g = None) /\
  (forall c t g, Ascii.eqb c rbracket = false -> K (c :: t) g = None).

(** No run of [.] over a prefix of [s] leaves [K] a text it accepts,
    whatever the group then holds. *)
Definition hopeless (K : kont) (s : string) : Prop :=
  forall G : string -> groups_t,
    star_k is_dot (fun s' => K s' (G s')) s = None.

(* ================================================================== *)
(** ** The condition normalizer in the words of its description *)
(* ================================================================== *)

Fixpoint take_while (p : ascii -> bool) (s : string) : string :=
  match s with
  | c :: s' => if p c then c :: take_while p s' else []
  | [] => []
  end.

Fixpoint drop_while (p : ascii -> bool) (s : string) : string :=
  match s with
  | c :: s' => if p c then drop_while p s' else s
  | [] => []
  end.

(** A series reference at the head of [s]: df, an opening bracket, a
    quote, an identifier, a quote and a closing bracket.  The result is
    the identifier and the text after the reference.  With [same_quotes]
    the closing quote has to be the opening one. *)
Definition series_ref (same_quotes : bool) (s : string)
  : option (string * string) :=
  if startswith "df[" s then
    match skipn 3 s with
    | q1 :: s1 =>
        let w := take_while is_word s1 in
        match w, drop_while is_word s1 with
        | _ :: _, q2 :: c :: rest =>
            if is_quote q1 && is_quote q2 && Ascii.eqb c rbracket &&
               (negb same_quotes || Ascii.eqb q1 q2)
            then Some (w, rest)
            else None
        | _, _ => None
        end
    | [] => None
    end
  else None.

(** Step 1 of the description: every series reference becomes its bare
    field. *)
Definition bare_refs (same_quotes : bool) (s : string) : string :=
  scan (series_ref same_quotes) 0 s.

(** The five steps in their order. *)
Definition normalize (same_quotes : bool) (condition : string) : string :=
  str_replace "df." ""
    (str_replace "|" "OR"
       (str_replace "&" "AND"
          (str_replace "==" "=" (bare_refs same_quotes condition)))).

(** The description as it stands names the two forms with matching
    quotes; the amended one lets the two quotes differ. *)
Definition normalize_claimed : string -> string := normalize true.
Definition normalize_amended : string -> string := normalize false.

Definition is_paren (c : ascii) : bool :=
  Ascii.eqb c "("%char || Ascii.eqb c ")"%char.

Definition parens (s : string) : string := filter is_paren s.

(** [s] is wrapped in a pair of equal quotes; [s] is one quote. *)
Definition wrapped (s : string) : Prop :=
  exists q body, is_quote q = true /\ s = [q] ++ body ++ [q].

Definition lone_quote (s : string) : Prop :=
  exists q, is_quote q = true /\ s = [q].

(** Occurrences and replacements of [find] hold no parenthesis. *)
Definition quiet (find : string -> option (string * string)) : Prop :=
  forall t new rest,
    find t = Some (new, rest) ->
    exists used,
      t = used ++ rest /\ used <> [] /\ parens used = [] /\ parens new = [].

(** A text of quotes and identifier characters. *)
Definition plain (s : string) : bool :=
  forallb (fun c => is_quote c || is_word c) s.

(** [r] ends with the end-of-string anchor. *)
Fixpoint ends_with_eos (r : regex) : bool :=
  match r with
  | Eos => true
  | Seq _ r2 => ends_with_eos r2
  | _ => false
  end.

(* ================================================================== *)
(** ** Notions used for the further properties *)
(* ================================================================== *)

(** The literal characters every match of [r] consumes. *)
Fixpoint must (r : regex) : list ascii :=
  match r with
  | Chr c => [c]
  | Seq r1 r2 => must r1 ++ must r2
  | Grp _ r1 => must r1
  | _ => []
  end.

(** The characters the five rewrites look for. *)
Definition special : list ascii :=
  ["["%char; "="%char; "&"%char; "|"%char; "."%char].

Definition unmarked (s : string) : Prop := forall x, In x special -> ~ In x s.

(** [only P r]: every character a match of [r] consumes is in the
    class [P]. *)
Fixpoint only (P : ascii -> bool) (r : regex) : Prop :=
  match r with
  | Chr c => P c = true
  | Cls p | Star p => forall c, p c = true -> P c = true
  | Seq r1 r2 | Alt r1 r2 => only P r1 /\ only P r2
  | Opt r1 | Grp _ r1 => only P r1
  | Eps | Eos => True
  end.

(** [tame P r]: the body of every group of [r] consumes characters of
    [P] only. *)
Fixpoint tame (P : ascii -> bool) (r : regex) : Prop :=
  match r with
  | Seq r1 r2 | Alt r1 r2 => tame P r1 /\ tame P r2
  | Opt r1 => tame P r1
  | Grp _ r1 => only P r1
  | _ => True
  end.

(** Every group that holds a text holds characters of [P] only. *)
Definition kept (P : ascii -> bool) (g : groups_t) : Prop :=
  forall v, In (Some v) g -> forallb P v = true.

(* ================================================================== *)
(** ** Characters *)
(* ================================================================== *)

Ltac all_chars c :=
  destruct c as [[|] [|] [|] [|] [|] [|] [|] [|]].

Lemma space_not_word c : is_space c = true -> is_word c = false.
Proof. all_chars c; vm_compute; intros H; try discriminate H; reflexivity. Qed.

Lemma word_not_space c : is_word c = true -> is_space c = false.
Proof. all_chars c; vm_compute; intros H; try discriminate H; reflexivity. Qed.

Lemma word_not_quote c : is_word c = true -> is_quote c = false.
Proof. all_chars c; vm_compute; intros H; try discriminate H; reflexivity. Qed.

Lemma word_is_dot c : is_word c = true -> is_dot c = true.
Proof. all_chars c; vm_compute; intros H; try discriminate H; reflexivity. Qed.

Lemma quote_not_word c : is_quote c = true -> is_word c = false.
Proof. all_chars c; vm_compute; intros H; try discriminate H; reflexivity. Qed.

Lemma quote_not_space c : is_quote c = true -> is_space c = false.
Proof. all_chars c; vm_compute; intros H; try discriminate H; reflexivity. Qed.

Lemma quote_is_dot c : is_quote c = true -> is_dot c = true.
Proof. all_chars c; vm_compute; intros H; try discriminate H; reflexivity. Qed.

(** A character of a class differs from any character outside it. *)
Lemma class_neq (p : ascii -> bool) c x :
  p c = true -> p x = false -> Ascii.eqb c x = false.
Proof.
  intros Hc Hx. destruct (Ascii.eqb c x) eqn:E; [|reflexivity].
  apply Ascii.eqb_eq in E. subst x. congruence.
Qed.

Lemma str_eqb_refl a : str_eqb a a = true.
Proof. induction a; simpl; [|rewrite Ascii.eqb_refl]; auto. Qed.

Lemma str_eqb_eq a b : str_eqb a b = true <-> a = b.
Proof.
  split; [|intros ->; apply str_eqb_refl].
  revert b; induction a as [|x a IH]; intros [|y b]; simpl; try discriminate; auto.
  intros H. apply andb_true_iff in H as [H1 H2].
  apply Ascii.eqb_eq in H1. f_equal; auto.
Qed.

Lemma str_eqb_neq a b : a <> b -> str_eqb a b = false.
Proof.
  intros H. destruct (str_eqb a b) eqn:E; [|reflexivity].
  apply str_eqb_eq in E. contradiction.
Qed.

Lemma startswith_inv p s : startswith p s = true -> exists t, s = p ++ t.
Proof.
  revert s; induction p as [|x p IH]; intros s H; simpl in *.
  - now exists s.
  - destruct s as [|y s]; [discriminate|].
    apply andb_true_iff in H as [H1 H2]. apply Ascii.eqb_eq in H1. subst y.
    destruct (IH _ H2) as [t ->]. now exists t.
Qed.

(* ================================================================== *)
(** ** Stripping *)
(* ================================================================== *)

Lemma lstrip_blank ws c s :
  blank ws = true -> is_space c = false -> lstrip (ws ++ c :: s) = c :: s.
Proof.
  unfold blank. induction ws as [|a ws IH]; simpl; intros Hws Hc.
  - now rewrite Hc.
  - apply andb_true_iff in Hws as [Ha Hws]. rewrite Ha. auto.
Qed.

(** What [rstrip] removes is a blank suffix. *)
Lemma rstrip_prefix s : exists z, s = rstrip s ++ z /\ blank z = true.
Proof.
  unfold blank. induction s as [|c s (z & Hz & Hb)]; simpl.
  - exists []. auto.
  - destruct (rstrip s) as [|r rs] eqn:E; simpl in Hz.
    + destruct (is_space c) eqn:Hc.
      * exists (c :: z). simpl. rewrite Hc, Hb. split; [congruence|reflexivity].
      * exists z. simpl. split; [congruence|assumption].
    + exists z. simpl. split; [congruence|assumption].
Qed.

Lemma no_rbracket_app a b :
  no_rbracket (a ++ b) = no_rbracket a && no_rbracket b.
Proof. apply forallb_app. Qed.

Lemma no_rbracket_rstrip s : no_rbracket s = true -> no_rbracket (rstrip s) = true.
Proof.
  intros H. destruct (rstrip_prefix s) as (z & Hz & _).
  rewrite Hz, no_rbracket_app in H. now apply andb_true_iff in H as [H _].
Qed.

Lemma lstrip_frame lead a l s :
  blank lead = true -> is_space a = false ->
  lstrip (lead ++ (a :: l) ++ s) = (a :: l) ++ s.
Proof. intros. now apply lstrip_blank. Qed.

(* ================================================================== *)
(** ** The matcher, one token at a time *)
(* ================================================================== *)

Lemma halts_after_blank p w c s :
  (forall x, is_space x = true -> p x = false) ->
  blank w = true -> p c = false -> halts p (w ++ c :: s).
Proof.
  intros Hp Hw Hc. destruct w as [|a w]; simpl; [assumption|].
  apply Hp. simpl in Hw. now apply andb_true_iff in Hw as [Ha _].
Qed.

Section Star.
Variable p : ascii -> bool.
Variable k : string -> option result.

(** With the run complete and the continuation content, that is the
    match. *)
Lemma star_k_ok w rest x :
  forallb p w = true -> halts p rest -> k rest = Some x ->
  star_k p k (w ++ rest) = Some x.
Proof.
  intros Hw Hh Hk. induction w as [|c w IH]; simpl in *.
  - destruct rest as [|d rest]; simpl in *; [assumption|now rewrite Hh].
  - apply andb_true_iff in Hw as [Hc Hw]. now rewrite Hc, IH.
Qed.

(** A continuation that refuses any text headed by a [p] character
    sees exactly the text after the complete run. *)
Lemma star_k_exact w rest :
  forallb p w = true -> halts p rest ->
  (forall c t, p c = true -> k (c :: t) = None) ->
  star_k p k (w ++ rest) = k rest.
Proof.
  intros Hw Hh Hk. induction w as [|c w IH]; simpl in *.
  - destruct rest as [|d rest]; simpl in *; [reflexivity|now rewrite Hh].
  - apply andb_true_iff in Hw as [Hc Hw]. rewrite Hc, IH by assumption.
    rewrite (Hk c _ Hc). now destruct (k rest).
Qed.

(** A longer run that succeeds is preferred to any shorter one. *)
Lemma star_k_prefix a b x :
  forallb p a = true -> star_k p k b = Some x -> star_k p k (a ++ b) = Some x.
Proof.
  intros Ha Hb. induction a as [|c a IH]; simpl in *; [assumption|].
  apply andb_true_iff in Ha as [Hc Ha]. now rewrite Hc, IH.
Qed.

(** A continuation that insists on a closing bracket gets nowhere in
    a text without one. *)
Lemma star_k_skip X W :
  (forall c t, Ascii.eqb c rbracket = false -> k (c :: t) = None) ->
  no_rbracket X = true -> star_k p k W = None ->
  star_k p k (X ++ W) = None.
Proof.
  intros Hk HX HW. induction X as [|c X IH]; simpl in *; [assumption|].
  apply andb_true_iff in HX as [Hc HX]. apply negb_true_iff in Hc.
  rewrite IH, (Hk c _ Hc) by assumption. now destruct (p c).
Qed.

Lemma star_k_no_rbracket Y :
  k [] = None ->
  (forall c t, Ascii.eqb c rbracket = false -> k (c :: t) = None) ->
  no_rbracket Y = true -> star_k p k Y = None.
Proof.
  intros H0 Hk HY. rewrite <- (app_nil_r Y). now apply star_k_skip.
Qed.

Lemma star_k_some s x : star_k p k s = Some x -> exists s', k s' = Some x.
Proof.
  induction s as [|c s IH]; simpl; [eauto|].
  destruct (p c); [|eauto].
  destruct (star_k p k s) eqn:E; [|eauto].
  intros H. injection H as ->. auto.
Qed.
End Star.

Lemma run_seq (g : groups_t) (k : kont) r1 r2 s :
  run (r1 >> r2) s g k = run r1 s g (fun s' g' => run r2 s' g' k).
Proof. reflexivity. Qed.

Lemma run_lit (g : groups_t) (k : kont) l s : run (lit l) (l ++ s) g k = k s g.
Proof. induction l as [|c l IH]; simpl; [|rewrite Ascii.eqb_refl]; auto. Qed.

Lemma run_lit_seq (g : groups_t) (k : kont) l r s :
  run (lit l >> r) (l ++ s) g k = run r s g k.
Proof. rewrite run_seq. apply run_lit. Qed.

Lemma run_cls (g : groups_t) (k : kont) p c s :
  p c = true -> run (Cls p) ([c] ++ s) g k = k s g.
Proof. simpl. now intros ->. Qed.

Lemma run_star_ok (g : groups_t) (k : kont) p w rest x :
  forallb p w = true -> halts p rest -> k rest g = Some x ->
  run (Star p) (w ++ rest) g k = Some x.
Proof. intros. simpl. now apply star_k_ok. Qed.

Lemma run_star_exact (g : groups_t) (k : kont) p w rest :
  forallb p w = true -> halts p rest ->
  (forall c t, p c = true -> k (c :: t) g = None) ->
  run (Star p) (w ++ rest) g k = k rest g.
Proof. intros. simpl. now apply star_k_exact. Qed.

Lemma run_opt_take (g : groups_t) (k : kont) r s x :
  run r s g k = Some x -> run (Opt r) s g k = Some x.
Proof. simpl. now intros ->. Qed.

Lemma run_opt_skip (g : groups_t) (k : kont) r s :
  run r s g k = None -> run (Opt r) s g k = k s g.
Proof. simpl. now intros ->. Qed.

(** The text a group consumed. *)
Lemma consumed_app (w rest : string) :
  firstn (length (w ++ rest) - length rest) (w ++ rest) = w.
Proof.
  rewrite length_app, Nat.add_sub. rewrite firstn_app, Nat.sub_diag.
  simpl. now rewrite firstn_all, app_nil_r.
Qed.

Lemma forallb_nonempty (p : ascii -> bool) (w : string) :
  match w with [] => false | _ :: _ => forallb p w end = true ->
  exists c w', w = c :: w' /\ p c = true /\ forallb p w' = true.
Proof.
  destruct w as [|c w']; [discriminate|]. simpl. intros H.
  apply andb_true_iff in H as [? ?]. eauto.
Qed.

(** [(p+)] as group [n], the run complete. *)
Lemma run_grp_plus_ok (n : nat) (g : groups_t) (k : kont) p w rest x :
  match w with [] => false | _ :: _ => forallb p w end = true ->
  halts p rest -> k rest (set_group n w g) = Some x ->
  run (Grp n (Plus p)) (w ++ rest) g k = Some x.
Proof.
  intros Hw Hh Hk. destruct (forallb_nonempty _ _ Hw) as (c & w' & -> & Hc & Hw').
  cbn [run Plus app]. rewrite Hc. apply star_k_ok; try assumption.
  change (c :: w' ++ rest) with ((c :: w') ++ rest).
  now rewrite consumed_app.
Qed.

Lemma run_word_ok (n : nat) (g : groups_t) (k : kont) w rest x :
  ident w = true -> halts is_word rest ->
  k rest (set_group n w g) = Some x ->
  run (Grp n (Plus is_word)) (w ++ rest) g k = Some x.
Proof. apply run_grp_plus_ok. Qed.

(* ================================================================== *)
(** ** Which groups a match has set *)
(* ================================================================== *)

Lemma set_nth_length i v g : length (set_nth i v g) = length g.
Proof.
  revert i; induction g as [|x g IH]; intros [|i]; simpl; auto.
Qed.

Lemma set_nth_same i v g : i < length g -> nth_error (set_nth i v g) i = Some v.
Proof.
  revert i; induction g as [|x g IH]; intros [|i]; simpl; try lia; auto.
  intros H. apply IH. lia.
Qed.

Lemma set_nth_other i j v g :
  i <> j -> nth_error (set_nth i v g) j = nth_error g j.
Proof.
  revert i j; induction g as [|x g IH]; intros [|i] [|j]; simpl;
    try congruence; auto.
Qed.

Lemma set_group_length n v g : length (set_group n v g) = length g.
Proof. destruct n; simpl; [reflexivity|apply set_nth_length]. Qed.

Lemma set_group_bound n v g : 1 <= n <= length g -> bound n (set_group n v g).
Proof.
  intros H. destruct n as [|i]; [lia|]. exists i, v. split; [reflexivity|].
  simpl. apply set_nth_same. lia.
Qed.

Lemma set_group_keeps n m v g : bound m g -> bound m (set_group n v g).
Proof.
  intros (j & w & -> & Hj). destruct n as [|i]; simpl; [now exists j, w|].
  destruct (Nat.eq_dec i j) as [->|Hne].
  - exists j, v. split; [reflexivity|]. apply set_nth_same.
    apply nth_error_Some. congruence.
  - exists j, w. split; [reflexivity|]. now rewrite set_nth_other.
Qed.

(** A successful run reaches its continuation with the groups of
    [binds r] set, none unset and none added. *)
Lemma run_binds r : forall s g k x,
  run r s g k = Some x ->
  exists s' g',
    k s' g' = Some x /\ length g' = length g /\
    (forall m, bound m g -> bound m g') /\
    (forall m, In m (binds r) -> 1 <= m <= length g -> bound m g').
Proof.
  induction r as [|c|p|p|r1 IH1 r2 IH2|r1 IH1 r2 IH2|r1 IH1|n r1 IH1|];
    intros s g k x H; simpl in H.
  - exists s, g. simpl. intuition.
  - destruct s as [|a s]; [discriminate|].
    destruct (Ascii.eqb a c); [|discriminate].
    exists s, g. simpl. intuition.
  - destruct s as [|a s]; [discriminate|]. destruct (p a); [|discriminate].
    exists s, g. simpl. intuition.
  - apply star_k_some in H as [s' H]. exists s', g. simpl. intuition.
  - apply IH1 in H as (s1 & g1 & H & L1 & K1 & B1).
    apply IH2 in H as (s2 & g2 & H & L2 & K2 & B2).
    exists s2, g2. repeat split; [assumption|congruence|auto|].
    intros m Hm Hr. simpl in Hm. apply in_app_or in Hm as [Hm|Hm].
    + apply K2, B1; assumption.
    + apply B2; [assumption|]. now rewrite L1.
  - destruct (run r1 s g k) eqn:E.
    + injection H as ->. apply IH1 in E as (s1 & g1 & E & L1 & K1 & _).
      exists s1, g1. simpl. intuition.
    + apply IH2 in H as (s1 & g1 & E' & L1 & K1 & _).
      exists s1, g1. simpl. intuition.
  - destruct (run r1 s g k) eqn:E.
    + injection H as ->. apply IH1 in E as (s1 & g1 & E & L1 & K1 & _).
      exists s1, g1. simpl. intuition.
    + exists s, g. simpl. intuition.
  - apply IH1 in H as (s1 & g1 & H & L1 & K1 & B1).
    eexists s1, _. split; [exact H|]. rewrite set_group_length.
    repeat split; [assumption| |].
    + intros m Hm. apply set_group_keeps. auto.
    + intros m [<-|Hm] Hr.
      * apply set_group_bound. now rewrite L1.
      * apply set_group_keeps. auto.
  - destruct (at_end s); [|discriminate]. exists s, g. simpl. intuition.
Qed.

Lemma re_match_binds r s m :
  re_match r s = Some m ->
  length (groups m) = ngroups r /\
  forall n, In n (binds r) -> 1 <= n <= ngroups r -> bound n (groups m).
Proof.
  unfold re_match. intros H.
  apply run_binds in H as (s' & g' & H & L & _ & B).
  rewrite repeat_length in L, B. injection H as <-. simpl.
  split; [assumption|]. intros n Hn Hr. now apply B.
Qed.

Lemma bound_nth n g : bound n g -> exists v, nth (n - 1) g None = Some v.
Proof.
  intros (i & v & -> & H). exists v. simpl. rewrite Nat.sub_0_r.
  now apply nth_error_nth.
Qed.

(** The three-group templates always hand over three strings. *)
Lemma three_groups r s m :
  ngroups r = 3 -> In 1 (binds r) -> In 2 (binds r) -> In 3 (binds r) ->
  re_match r s = Some m ->
  exists a b c, groups m = [Some a; Some b; Some c].
Proof.
  intros N B1 B2 B3 H. apply re_match_binds in H as [L B]. rewrite N in *.
  destruct (B 1 B1) as (i1 & v1 & E1 & H1); [lia|].
  destruct (B 2 B2) as (i2 & v2 & E2 & H2); [lia|].
  destruct (B 3 B3) as (i3 & v3 & E3 & H3); [lia|].
  injection E1 as <-. injection E2 as <-. injection E3 as <-.
  destruct (groups m) as [|x [|y [|z [|? ?]]]]; try discriminate.
  simpl in H1, H2, H3. injection H1 as ->. injection H2 as ->.
  injection H3 as ->. eauto.
Qed.

Lemma two_groups_first r s m :
  ngroups r = 2 -> In 1 (binds r) ->
  re_match r s = Some m ->
  exists a o, groups m = [Some a; o].
Proof.
  intros N B1 H. apply re_match_binds in H as [L B]. rewrite N in *.
  destruct (B 1 B1) as (i1 & v1 & E1 & H1); [lia|].
  injection E1 as <-.
  destruct (groups m) as [|x [|y [|? ?]]]; try discriminate.
  simpl in H1. injection H1 as ->. eauto.
Qed.

Lemma two_groups r s m :
  ngroups r = 2 -> In 1 (binds r) -> In 2 (binds r) ->
  re_match r s = Some m ->
  exists a b, groups m = [Some a; Some b].
Proof.
  intros N B1 B2 H. apply re_match_binds in H as [L B]. rewrite N in *.
  destruct (B 1 B1) as (i1 & v1 & E1 & H1); [lia|].
  destruct (B 2 B2) as (i2 & v2 & E2 & H2); [lia|].
  injection E1 as <-. injection E2 as <-.
  destruct (groups m) as [|x [|y [|? ?]]]; try discriminate.
  simpl in H1, H2. injection H1 as ->. injection H2 as ->. eauto.
Qed.

Lemma first_group r s m :
  1 <= ngroups r -> In 1 (binds r) ->
  re_match r s = Some m -> exists a, group m 1 = Some a.
Proof.
  intros N B1 H. apply re_match_binds in H as [L B].
  unfold group. apply bound_nth. apply B; [assumption|lia].
Qed.

(** [python_to_sql] raises nothing: every unpacking finds the number of
    groups it expects, and every group it calls a method on is a
    string. *)
Lemma python_to_sql_returns code table :
  exists sql, python_to_sql code table = Returns sql.
Proof.
  unfold python_to_sql.
  destruct (re_match pat_groupby _) as [m|] eqn:E1.
  { apply three_groups in E1 as (a & b & c & ->);
      [|reflexivity|simpl; tauto..]. simpl. eauto. }
  destruct (re_match pat_sort _) as [m|] eqn:E2.
  { apply two_groups_first in E2 as (a & o & ->);
      [|reflexivity|simpl; tauto]. simpl. eauto. }
  destruct (re_match pat_chained _) as [m|] eqn:E3.
  { apply three_groups in E3 as (a & b & c & ->);
      [|reflexivity|simpl; tauto..]. simpl. eauto. }
  destruct (re_match pat_filter _) as [m|] eqn:E4.
  { apply first_group in E4 as (a & ->);
      [|simpl; lia|simpl; tauto]. simpl. eauto. }
  destruct (re_match pat_col_agg _) as [m|] eqn:E5.
  { apply two_groups in E5 as (a & b & ->);
      [|reflexivity|simpl; tauto..]. simpl. eauto. }
  destruct (re_match pat_col _) as [m|] eqn:E6; eauto.
Qed.

(* ================================================================== *)
(** ** The texts the templates are written for *)
(* ================================================================== *)

Ltac split_ok :=
  repeat match goal with
         | H : _ && _ = true |- _ => apply andb_true_iff in H; destruct H
         end.

Lemma halts_ident p f r :
  (forall c, is_word c = true -> p c = false) ->
  ident f = true -> halts p (f ++ r).
Proof.
  intros Hp Hf. destruct (forallb_nonempty _ _ Hf) as (c & w & -> & Hc & _).
  simpl. auto.
Qed.

Ltac halting :=
  first
    [ exact I
    | reflexivity
    | apply quote_not_space; assumption
    | apply quote_not_word; assumption
    | apply halts_ident; [exact word_not_space|assumption]
    | apply halts_after_blank; [exact space_not_word|assumption|reflexivity] ].

Lemma run_blanks_ok g k w rest x :
  blank w = true -> halts is_space rest -> k rest g = Some x ->
  run (Star is_space) (w ++ rest) g k = Some x.
Proof. apply run_star_ok. Qed.

Lemma run_quoted_ok n g k q rest x :
  quoted_ok q = true ->
  k rest (set_group n (q_name q) g) = Some x ->
  run (quoted n) (quoted_text q rest) g k = Some x.
Proof.
  unfold quoted_ok, quoted_text, quoted. intros Hq Hk. split_ok.
  rewrite run_seq, run_cls by assumption.
  rewrite run_seq. apply run_word_ok; [assumption|simpl; halting|].
  now rewrite run_cls.
Qed.

Lemma halts_quoted q rest :
  quoted_ok q = true -> halts is_space (quoted_text q rest).
Proof. unfold quoted_ok. intros H. split_ok. simpl. halting. Qed.

Lemma run_column_ok n g k c rest x :
  column_ok c = true ->
  k rest (set_group n (column_name c) g) = Some x ->
  run (bracket_col n) (column_text c rest) g k = Some x.
Proof.
  unfold column_ok, column_text, bracket_col. intros Hc Hk. split_ok.
  rewrite run_lit_seq, run_seq.
  apply run_blanks_ok; [assumption|now apply halts_quoted|].
  rewrite run_seq. apply run_quoted_ok; [assumption|].
  rewrite run_seq. apply run_blanks_ok; [assumption|halting|].
  now rewrite run_lit.
Qed.

Lemma run_call_ok n g k c rest x :
  call_ok c = true ->
  k rest (set_group n (f_name c) g) = Some x ->
  run (call_tail n) (call_text c rest) g k = Some x.
Proof.
  unfold call_ok, call_text, call_tail. intros Hc Hk. split_ok.
  rewrite run_seq. apply run_blanks_ok; [assumption|halting|].
  rewrite run_lit_seq, run_seq.
  apply run_blanks_ok; [assumption|halting|].
  rewrite run_seq. apply run_word_ok; [assumption|halting|].
  rewrite run_seq. apply run_blanks_ok; [assumption|halting|].
  rewrite run_lit_seq, run_seq.
  apply run_blanks_ok; [assumption|halting|].
  now rewrite run_lit.
Qed.

(** *** Stripping the texts *)

Lemma rstrip_app_visible a b : rstrip b <> [] -> rstrip (a ++ b) = a ++ rstrip b.
Proof.
  intros H. induction a as [|x a IH]; [reflexivity|].
  simpl. rewrite IH. destruct (a ++ rstrip b) eqn:E; [|reflexivity].
  apply app_eq_nil in E as [_ E]. contradiction.
Qed.

Lemma rstrip_visible c s : is_space c = false -> rstrip (c :: s) <> [].
Proof. intros H. simpl. destruct (rstrip s); [rewrite H|]; discriminate. Qed.

Lemma rstrip_app_ne a b : rstrip b <> [] -> rstrip (a ++ b) <> [].
Proof.
  intros H. rewrite rstrip_app_visible by assumption.
  intros E. apply app_eq_nil in E as [_ E]. contradiction.
Qed.

Ltac visible :=
  first [ apply rstrip_visible; reflexivity
        | apply rstrip_app_ne; visible ].

Lemma rstrip_lit_end c rest :
  is_space c = false -> rstrip ([c] ++ rest) = [c] ++ rstrip rest.
Proof. intros H. simpl. destruct (rstrip rest); [now rewrite H|reflexivity]. Qed.

Ltac push_rstrip :=
  repeat (rewrite rstrip_app_visible by visible);
  rewrite rstrip_lit_end by reflexivity.

(** *** 1) groupby *)

Lemma halts_column c rest : halts is_space (column_text c rest).
Proof. reflexivity. Qed.

Lemma match_groupby e rest :
  groupby_ok e = true ->
  re_match pat_groupby (groupby_text e rest)
  = Some ([Some (q_name (gb_key e)); Some (column_name (gb_col e));
           Some (f_name (gb_call e))], rest).
Proof.
  unfold groupby_ok, groupby_text, re_match, pat_groupby. intros H. split_ok.
  rewrite run_lit_seq, run_seq.
  apply run_blanks_ok; [assumption|now apply halts_quoted|].
  rewrite run_seq. apply run_quoted_ok; [assumption|].
  rewrite run_seq. apply run_blanks_ok; [assumption|halting|].
  rewrite run_lit_seq, run_seq.
  apply run_blanks_ok; [assumption|apply halts_column|].
  rewrite run_seq. apply run_column_ok; [assumption|].
  apply run_call_ok; [assumption|]. reflexivity.
Qed.

Lemma strip_groupby lead e rest :
  blank lead = true ->
  strip (lead ++ groupby_text e rest) = groupby_text e (rstrip rest).
Proof.
  intros Hl. unfold strip, groupby_text.
  rewrite lstrip_frame by (assumption || reflexivity).
  unfold quoted_text, column_text, quoted_text, call_text.
  now push_rstrip.
Qed.

Theorem groupby_general lead e rest table :
  blank lead = true -> groupby_ok e = true ->
  python_to_sql (lead ++ groupby_text e rest) table
  = Returns (groupby_sql e table).
Proof.
  intros Hl He. unfold python_to_sql.
  rewrite strip_groupby, match_groupby by assumption. reflexivity.
Qed.

(** *** 2) sort_values *)

Lemma run_bool_ok n g k v rest x :
  k rest (set_group n (bool_text v) g) = Some x ->
  run (Grp n (Alt (lit "True") (lit "False"))) (bool_text v ++ rest) g k = Some x.
Proof.
  intros Hk. destruct v; unfold bool_text in *; cbn [run].
  - now rewrite run_lit, consumed_app, Hk.
  - replace (run (lit "True") ("False" ++ rest) g _) with (@None result)
      by reflexivity.
    now rewrite run_lit, consumed_app.
Qed.

(** Without the argument the optional group does not match. *)
Lemma ascending_body_none g k w rest :
  blank w = true ->
  run ascending_body (w ++ ")" ++ rest) g k = None.
Proof.
  intros Hw. unfold ascending_body. rewrite run_seq.
  rewrite run_star_exact; [reflexivity|assumption|reflexivity|].
  intros c t Hc. cbn. now rewrite (class_neq is_space c _ Hc).
Qed.

Lemma ascending_body_ok g k w1 w2 w3 w4 v rest x :
  blank w1 = true -> blank w2 = true -> blank w3 = true -> blank w4 = true ->
  k rest (set_group 2 (bool_text v) g) = Some x ->
  run ascending_body (ascending_text (Given w1 w2 w3 w4 v) rest) g k = Some x.
Proof.
  intros B1 B2 B3 B4 Hk. unfold ascending_body, ascending_text.
  rewrite run_seq. apply run_blanks_ok; [assumption|halting|].
  rewrite run_lit_seq, run_seq. apply run_blanks_ok; [assumption|halting|].
  rewrite run_lit_seq, run_seq. apply run_blanks_ok; [assumption|halting|].
  rewrite run_lit_seq, run_seq.
  apply run_blanks_ok; [assumption|destruct v; halting|].
  now apply run_bool_ok.
Qed.

Lemma match_sort e rest :
  sort_ok e = true ->
  re_match pat_sort (sort_text e rest)
  = Some ([Some (q_name (so_col e)); ascending_value (so_asc e)], rest).
Proof.
  unfold sort_ok, sort_text, re_match, pat_sort. intros H. split_ok.
  fold ascending_body.
  rewrite run_lit_seq, run_seq.
  apply run_blanks_ok; [assumption|now apply halts_quoted|].
  rewrite run_seq. apply run_quoted_ok; [assumption|].
  rewrite run_seq.
  destruct (so_asc e) as [|w1 w2 w3 w4 v]; cbn [ascending_text ascending_value].
  - rewrite run_opt_skip by now apply ascending_body_none.
    rewrite run_seq. apply run_blanks_ok; [assumption|halting|].
    now rewrite run_lit.
  - apply run_opt_take. cbn [ascending_ok] in *. split_ok.
    apply ascending_body_ok; try assumption.
    rewrite run_seq. apply run_blanks_ok; [assumption|halting|].
    now rewrite run_lit.
Qed.

Lemma strip_sort lead e rest :
  blank lead = true ->
  strip (lead ++ sort_text e rest) = sort_text e (rstrip rest).
Proof.
  intros Hl. unfold strip, sort_text.
  rewrite lstrip_frame by (assumption || reflexivity).
  unfold quoted_text. destruct (so_asc e); unfold ascending_text; now push_rstrip.
Qed.

Lemma groupby_not_sort e rest : re_match pat_groupby (sort_text e rest) = None.
Proof. reflexivity. Qed.

Theorem sort_general lead e rest table :
  blank lead = true -> sort_ok e = true ->
  python_to_sql (lead ++ sort_text e rest) table = Returns (sort_sql e table).
Proof.
  intros Hl He. unfold python_to_sql.
  rewrite strip_sort, groupby_not_sort, match_sort by assumption.
  unfold sort_sql. destruct (so_asc e) as [|w1 w2 w3 w4 [|]]; reflexivity.
Qed.

(** *** The greedy condition of templates 3 and 4 *)

Lemma wants_rbracket_lit r k :
  wants_rbracket (fun s g => run (lit "]" >> r) s g k).
Proof.
  split; [reflexivity|]. intros c t g H. cbn. unfold rbracket in H. now rewrite H.
Qed.

Lemma hopeless_end K s :
  wants_rbracket K -> no_rbracket s = true -> hopeless K s.
Proof.
  intros [H0 Hk] Hs G. apply star_k_no_rbracket; [apply H0| |assumption].
  intros; now apply Hk.
Qed.

Lemma hopeless_skip K X W :
  wants_rbracket K -> no_rbracket X = true -> hopeless K W ->
  hopeless K (X ++ W).
Proof.
  intros [H0 Hk] HX HW G. apply star_k_skip; [|assumption|apply HW].
  intros; now apply Hk.
Qed.

Lemma hopeless_rbracket K Y :
  hopeless K Y -> (forall g, K ("]" ++ Y) g = None) -> hopeless K ("]" ++ Y).
Proof.
  intros HY HK G. cbn. rewrite HY. apply HK.
Qed.

(** [(.+)] as group [n] stops before the last closing bracket from
    which the rest of the template matches. *)
Lemma run_dot_group_last n g (K : kont) cond Z x :
  one_line cond = true -> hopeless K Z ->
  K ("]" ++ Z) (set_group n cond g) = Some x ->
  run (Grp n (Plus is_dot)) (cond ++ "]" ++ Z) g K = Some x.
Proof.
  intros Hc HZ HK.
  destruct (forallb_nonempty _ _ Hc) as (c & w & -> & Hd & Hw).
  cbn [run Plus app]. rewrite Hd. apply star_k_prefix; [assumption|].
  cbn [star_k app]. change (is_dot "]") with true. cbv iota.
  rewrite (HZ (fun s' => set_group n _ g)).
  pose proof (consumed_app (c :: w) ("]" ++ Z)) as E. cbn [app] in E.
  now rewrite E.
Qed.

Lemma run_dot_group_none n g (K : kont) s :
  hopeless K s -> run (Grp n (Plus is_dot)) s g K = None.
Proof.
  intros Hs. destruct s as [|c s]; [reflexivity|].
  cbn [run Plus]. destruct (is_dot c) eqn:Hd; [|reflexivity].
  specialize
    (Hs (fun s' =>
           set_group n (firstn (length (c :: s) - length s') (c :: s)) g)).
  cbn [star_k] in Hs. rewrite Hd in Hs.
  destruct (star_k is_dot _ s) eqn:E; [discriminate|reflexivity].
Qed.

Lemma blank_no_rbracket w : blank w = true -> no_rbracket w = true.
Proof.
  unfold blank, no_rbracket. induction w as [|c w IH]; simpl; [reflexivity|].
  intros H. apply andb_true_iff in H as [Hc Hw]. rewrite IH by assumption.
  now rewrite (class_neq is_space c rbracket Hc).
Qed.

Lemma word_no_rbracket w : forallb is_word w = true -> no_rbracket w = true.
Proof.
  unfold no_rbracket. induction w as [|c w IH]; simpl; [reflexivity|].
  intros H. apply andb_true_iff in H as [Hc Hw]. rewrite IH by assumption.
  now rewrite (class_neq is_word c rbracket Hc).
Qed.

Lemma ident_no_rbracket w : ident w = true -> no_rbracket w = true.
Proof. destruct w; [discriminate|]. apply word_no_rbracket. Qed.

Lemma quote_no_rbracket q : is_quote q = true -> no_rbracket [q] = true.
Proof.
  intros H. unfold no_rbracket. simpl.
  now rewrite (class_neq is_quote q rbracket H).
Qed.

Lemma call_no_rbracket c rest :
  call_ok c = true -> no_rbracket rest = true ->
  no_rbracket (call_text c rest) = true.
Proof.
  unfold call_ok, call_text. intros H Hr. split_ok.
  rewrite !no_rbracket_app, (blank_no_rbracket (f_pre c)),
    (blank_no_rbracket (f_mid c)), (blank_no_rbracket (f_post c)),
    (blank_no_rbracket (f_args c)), (ident_no_rbracket (f_name c)), Hr
    by assumption.
  reflexivity.
Qed.

Lemma quoted_no_rbracket q : quoted_ok q = true ->
  no_rbracket ([q_open q] ++ q_name q ++ [q_close q]) = true.
Proof.
  unfold quoted_ok. intros H. split_ok.
  now rewrite !no_rbracket_app, (quote_no_rbracket (q_open q)),
    (quote_no_rbracket (q_close q)), (ident_no_rbracket (q_name q)).
Qed.

(** After a closing bracket, a call is neither a bracketed column nor
    the end of the text. *)
Lemma call_not_column g k c rest n r :
  call_ok c = true ->
  run (lit "]" >> Star is_space >> bracket_col n >> r)
      ("]" ++ call_text c rest) g k = None.
Proof.
  unfold call_ok, call_text. intros H. split_ok.
  rewrite run_lit_seq, run_seq.
  rewrite run_star_exact; [reflexivity|assumption|reflexivity|].
  intros x t Hx. cbn. now rewrite (class_neq is_space x _ Hx).
Qed.

Lemma star_k_none_all p k w rest :
  halts p rest -> (forall u, k (u ++ rest) = None) ->
  star_k p k (w ++ rest) = None.
Proof.
  intros Hh Hk. induction w as [|c w IH]; simpl.
  - destruct rest as [|d rest]; simpl in *; [apply (Hk [])|].
    rewrite Hh. apply (Hk []).
  - rewrite IH. pose proof (Hk (c :: w)) as E. cbn [app] in E. rewrite E.
    now destruct (p c).
Qed.

Lemma at_end_inside u c s :
  Ascii.eqb c newline = false -> at_end (u ++ c :: s) = false.
Proof.
  intros Hc. destruct u as [|a [|b u]]; simpl; try reflexivity.
  destruct s; [assumption|reflexivity].
Qed.

Lemma call_not_end g k c rest :
  call_ok c = true ->
  run (lit "]" >> Star is_space >> Eos) ("]" ++ call_text c rest) g k = None.
Proof.
  unfold call_ok, call_text. intros H. split_ok.
  rewrite run_lit_seq, run_seq. cbn [run].
  apply star_k_none_all; [reflexivity|].
  intros u. cbn [app]. now rewrite at_end_inside.
Qed.

Ltac no_rb :=
  first [ reflexivity
        | apply blank_no_rbracket; assumption
        | apply ident_no_rbracket; assumption
        | apply quote_no_rbracket; assumption
        | apply call_no_rbracket; assumption ].

(** After the closing bracket of a column the templates have nothing
    to come back to. *)
Lemma hopeless_after_quoted K q c rest :
  wants_rbracket K -> quoted_ok q = true -> call_ok c = true ->
  no_rbracket rest = true ->
  (forall g, K ("]" ++ call_text c rest) g = None) ->
  hopeless K (quoted_text q ("]" ++ call_text c rest)).
Proof.
  intros HK Hq Hc Hr Hn. unfold quoted_ok, quoted_text in *. split_ok.
  do 3 (apply hopeless_skip; [assumption|no_rb|]).
  apply hopeless_rbracket; [|assumption].
  apply hopeless_end; [assumption|no_rb].
Qed.

Lemma hopeless_column K col c rest :
  wants_rbracket K -> column_ok col = true -> call_ok c = true ->
  no_rbracket rest = true ->
  (forall g, K ("]" ++ call_text c rest) g = None) ->
  hopeless K (column_text col (call_text c rest)).
Proof.
  intros HK Hcol Hc Hr Hn.
  unfold column_ok, column_text, quoted_ok, quoted_text in *. split_ok.
  do 6 (apply hopeless_skip; [assumption|no_rb|]).
  apply hopeless_rbracket; [|assumption].
  apply hopeless_end; [assumption|no_rb].
Qed.

(** *** 3) chained filter and aggregate *)

Lemma match_chained e rest :
  chained_ok e = true -> no_rbracket rest = true ->
  re_match pat_chained (chained_text e rest)
  = Some ([Some (ch_cond e); Some (column_name (ch_col e));
           Some (f_name (ch_call e))], rest).
Proof.
  unfold chained_ok, chained_text, re_match, pat_chained. intros H Hr. split_ok.
  rewrite run_lit_seq, run_seq. apply run_dot_group_last; [assumption| |].
  - apply hopeless_skip; [apply wants_rbracket_lit|no_rb|].
    apply hopeless_column; try assumption; [apply wants_rbracket_lit|].
    intros g. now apply call_not_column.
  - rewrite run_lit_seq, run_seq.
    apply run_blanks_ok; [assumption|apply halts_column|].
    rewrite run_seq. apply run_column_ok; [assumption|].
    apply run_call_ok; [assumption|]. reflexivity.
Qed.

Lemma strip_chained lead e rest :
  blank lead = true ->
  strip (lead ++ chained_text e rest) = chained_text e (rstrip rest).
Proof.
  intros Hl. unfold strip, chained_text.
  rewrite lstrip_frame by (assumption || reflexivity).
  unfold column_text, quoted_text, call_text.
  now push_rstrip.
Qed.

Theorem chained_general lead e rest table :
  blank lead = true -> chained_ok e = true -> no_rbracket rest = true ->
  python_to_sql (lead ++ chained_text e rest) table
  = Returns (chained_sql e table).
Proof.
  intros Hl He Hr. unfold python_to_sql. rewrite strip_chained by assumption.
  replace (re_match pat_groupby _) with (@None result) by reflexivity.
  replace (re_match pat_sort _) with (@None result) by reflexivity.
  rewrite match_chained by (assumption || now apply no_rbracket_rstrip).
  reflexivity.
Qed.

(** *** 5) column aggregate *)

Lemma match_col_agg e rest :
  col_agg_ok e = true ->
  re_match pat_col_agg (col_agg_text e rest)
  = Some ([Some (q_name (ca_col e)); Some (f_name (ca_call e))], rest).
Proof.
  unfold col_agg_ok, col_agg_text, re_match, pat_col_agg. intros H. split_ok.
  rewrite run_lit_seq, run_seq. apply run_quoted_ok; [assumption|].
  rewrite run_lit_seq. apply run_call_ok; [assumption|]. reflexivity.
Qed.

Lemma chained_not_col_agg e rest :
  col_agg_ok e = true -> no_rbracket rest = true ->
  re_match pat_chained (col_agg_text e rest) = None.
Proof.
  unfold col_agg_ok, col_agg_text, re_match, pat_chained. intros H Hr. split_ok.
  rewrite run_lit_seq, run_seq. apply run_dot_group_none.
  apply hopeless_after_quoted; try assumption; [apply wants_rbracket_lit|].
  intros g. now apply call_not_column.
Qed.

Lemma filter_not_col_agg e rest :
  col_agg_ok e = true -> no_rbracket rest = true ->
  re_match pat_filter (col_agg_text e rest) = None.
Proof.
  unfold col_agg_ok, col_agg_text, re_match, pat_filter. intros H Hr. split_ok.
  rewrite run_lit_seq, run_seq. apply run_dot_group_none.
  apply hopeless_after_quoted; try assumption; [apply wants_rbracket_lit|].
  intros g. now apply call_not_end.
Qed.

Lemma strip_col_agg lead e rest :
  blank lead = true ->
  strip (lead ++ col_agg_text e rest) = col_agg_text e (rstrip rest).
Proof.
  intros Hl. unfold strip, col_agg_text.
  rewrite lstrip_frame by (assumption || reflexivity).
  unfold quoted_text, call_text.
  now push_rstrip.
Qed.

Theorem col_agg_general lead e rest table :
  blank lead = true -> col_agg_ok e = true -> no_rbracket rest = true ->
  python_to_sql (lead ++ col_agg_text e rest) table
  = Returns (col_agg_sql e table).
Proof.
  intros Hl He Hr. unfold python_to_sql. rewrite strip_col_agg by assumption.
  replace (re_match pat_groupby _) with (@None result) by reflexivity.
  replace (re_match pat_sort _) with (@None result) by reflexivity.
  pose proof (no_rbracket_rstrip _ Hr) as Hr'.
  rewrite chained_not_col_agg, filter_not_col_agg, match_col_agg by assumption.
  reflexivity.
Qed.

(* ================================================================== *)
(** ** The condition normalizer *)
(* ================================================================== *)

Lemma scan_ext f h :
  (forall t, f t = h t) -> forall s skip, scan f skip s = scan h skip s.
Proof.
  intros E. induction s as [|c s IH]; intros [|n]; simpl; auto.
  rewrite E. destruct (h (c :: s)) as [[new rest]|]; now rewrite IH.
Qed.

Lemma take_drop_while p s : take_while p s ++ drop_while p s = s.
Proof.
  induction s as [|c s IH]; simpl; [reflexivity|].
  destruct (p c); simpl; [now rewrite IH|reflexivity].
Qed.

Lemma take_while_all p s : forallb p (take_while p s) = true.
Proof.
  induction s as [|c s IH]; simpl; [reflexivity|].
  destruct (p c) eqn:E; simpl; [now rewrite E|reflexivity].
Qed.

Lemma halts_drop_while p s : halts p (drop_while p s).
Proof.
  induction s as [|c s IH]; simpl; [exact I|].
  destruct (p c) eqn:E; [assumption|exact E].
Qed.

(** A literal either heads the text or the match fails. *)
Lemma run_lit_startswith g k l r s :
  run (lit l >> r) s g k
  = if startswith l s then run r (skipn (length l) s) g k else None.
Proof.
  rewrite run_seq. revert s. induction l as [|c l IH]; intros s; [reflexivity|].
  destruct s as [|x s]; [reflexivity|]. cbn [lit]. rewrite run_seq. cbn [run].
  cbn [startswith length skipn]. rewrite (Ascii.eqb_sym c x).
  destruct (Ascii.eqb x c); [apply IH|reflexivity].
Qed.

(** [(p+)] as group [n], before a continuation that refuses a text
    headed by a [p] character: the group is the whole run. *)
Lemma run_grp_plus_span n g (K : kont) p s :
  (forall c t g', p c = true -> K (c :: t) g' = None) ->
  run (Grp n (Plus p)) s g K
  = match take_while p s with
    | [] => None
    | _ :: _ => K (drop_while p s) (set_group n (take_while p s) g)
    end.
Proof.
  intros HK. destruct s as [|c s]; [reflexivity|].
  cbn [run Plus take_while drop_while]. destruct (p c) eqn:Hc; [|reflexivity].
  rewrite <- (take_drop_while p s) at 1.
  rewrite star_k_exact;
    [|apply take_while_all|apply halts_drop_while|intros; now apply HK].
  pose proof (consumed_app (c :: take_while p s) (drop_while p s)) as E.
  cbn [app] in E. rewrite (take_drop_while p s) in E. now rewrite E.
Qed.

Lemma run_cls_cons g k p c s :
  run (Cls p) (c :: s) g k = if p c then k s g else None.
Proof. reflexivity. Qed.

(** The pattern of [_replace_series_refs] and the reference of the
    description find the same occurrences. *)
Lemma match_series s :
  match re_match pat_series s with
  | Some m => Some (backref1 m, snd m)
  | None => None
  end = series_ref false s.
Proof.
  unfold re_match, pat_series, series_ref.
  rewrite run_lit_startswith. destruct (startswith "df[" s); [|reflexivity].
  cbn [length]. destruct (skipn 3 s) as [|q1 s1]; [reflexivity|].
  rewrite run_seq, run_cls_cons. destruct (is_quote q1) eqn:Hq1.
  - rewrite run_seq, run_grp_plus_span.
    + destruct (take_while is_word s1) as [|w0 w]; [reflexivity|].
      destruct (drop_while is_word s1) as [|q2 [|c rest]]; cbn.
      * reflexivity.
      * now destruct (is_quote q2).
      * destruct (is_quote q2); [|reflexivity].
        unfold rbracket. now destruct (Ascii.eqb c "]").
    + intros c t g' Hc. cbn. now rewrite (word_not_quote c Hc).
  - destruct (take_while is_word s1) as [|w0 w]; [reflexivity|].
    now destruct (drop_while is_word s1) as [|q2 [|c rest]].
Qed.

Lemma re_sub_series s : re_sub pat_series backref1 s = bare_refs false s.
Proof. apply scan_ext. apply match_series. Qed.

Theorem replace_series_refs_spec c : replace_series_refs c = normalize_amended c.
Proof.
  unfold replace_series_refs, normalize_amended, normalize.
  now rewrite re_sub_series.
Qed.

(** *** Parentheses *)

Lemma parens_app a b : parens (a ++ b) = parens a ++ parens b.
Proof. apply filter_app. Qed.

Lemma skipn_length_app (a b : string) : skipn (length a) (a ++ b) = b.
Proof. induction a; simpl; auto. Qed.

Lemma scan_parens find :
  quiet find ->
  forall s skip, parens (scan find skip s) = parens (skipn skip s).
Proof.
  intros Hq. induction s as [|c s IH]; intros [|n]; try reflexivity.
  - cbn [scan skipn]. destruct (find (c :: s)) as [[new rest]|] eqn:E.
    + apply Hq in E as (used & Eu & Hne & Pu & Pn).
      destruct used as [|u0 u]; [congruence|].
      injection Eu as -> ->.
      rewrite parens_app, Pn, IH. cbn [app length].
      rewrite length_app.
      replace (S (length u + length rest) - length rest - 1) with (length u) by lia.
      rewrite skipn_length_app.
      change (u0 :: u ++ rest) with ((u0 :: u) ++ rest).
      now rewrite parens_app, Pu.
    + unfold parens in *. cbn [filter]. now rewrite (IH 0).
  - cbn [scan skipn]. apply IH.
Qed.

Lemma quiet_occurrence old new :
  old <> [] -> parens old = [] -> parens new = [] ->
  quiet (occurrence old new).
Proof.
  intros Hne Po Pn t new' rest. unfold occurrence.
  destruct (startswith old t) eqn:E; [|discriminate].
  intros H. injection H as <- <-.
  apply startswith_inv in E as [t' ->]. exists old.
  now rewrite skipn_length_app.
Qed.

Lemma str_replace_parens old new s :
  old <> [] -> parens old = [] -> parens new = [] ->
  parens (str_replace old new s) = parens s.
Proof.
  intros Hne Po Pn. destruct old as [|o old]; [congruence|].
  unfold str_replace. now rewrite scan_parens by now apply quiet_occurrence.
Qed.

Lemma parens_class (p : ascii -> bool) w :
  (forall c, p c = true -> is_paren c = false) ->
  forallb p w = true -> parens w = [].
Proof.
  intros Hp. induction w as [|c w IH]; [reflexivity|]. simpl. intros H.
  apply andb_true_iff in H as [Hc Hw]. now rewrite (Hp c Hc), IH.
Qed.

Lemma word_not_paren c : is_word c = true -> is_paren c = false.
Proof. all_chars c; vm_compute; intros H; try discriminate H; reflexivity. Qed.

Lemma quote_not_paren c : is_quote c = true -> is_paren c = false.
Proof. all_chars c; vm_compute; intros H; try discriminate H; reflexivity. Qed.

(** What [series_ref] finds. *)
Lemma series_ref_inv b t w rest :
  series_ref b t = Some (w, rest) ->
  exists q,
    quoted_ok q = true /\ q_name q = w /\
    t = "df[" ++ quoted_text q ("]" ++ rest) /\
    (b = true -> q_open q = q_close q).
Proof.
  unfold series_ref. destruct (startswith "df[" t) eqn:E; [|discriminate].
  apply startswith_inv in E as [t' ->]. cbn [skipn app].
  destruct t' as [|q1 s1]; [discriminate|].
  pose proof (take_drop_while is_word s1) as Es.
  pose proof (take_while_all is_word s1) as Hw.
  destruct (take_while is_word s1) as [|w0 w'] eqn:Ew; [discriminate|].
  destruct (drop_while is_word s1) as [|q2 [|c rest']]; try discriminate.
  destruct (is_quote q1 && is_quote q2 && Ascii.eqb c rbracket &&
            (negb b || Ascii.eqb q1 q2)) eqn:C; [|discriminate].
  intros H. injection H as <- <-.
  apply andb_true_iff in C as [C C4]. apply andb_true_iff in C as [C C3].
  apply andb_true_iff in C as [C1 C2]. apply Ascii.eqb_eq in C3. subst c.
  exists (Quoted q1 (w0 :: w') q2). unfold quoted_ok, quoted_text. cbn.
  rewrite C1, C2. cbn in Hw. rewrite Hw. repeat split.
  - now rewrite <- Es.
  - intros ->. cbn in C4. now apply Ascii.eqb_eq.
Qed.

Lemma quiet_series_ref b : quiet (series_ref b).
Proof.
  intros t w rest H. apply series_ref_inv in H as (q & Hq & <- & -> & _).
  unfold quoted_ok in Hq. split_ok.
  exists ("df[" ++ [q_open q] ++ q_name q ++ [q_close q] ++ "]").
  unfold quoted_text. repeat split.
  - now rewrite <- !app_assoc.
  - discriminate.
  - rewrite !parens_app. cbn.
    rewrite !quote_not_paren by assumption.
    rewrite (parens_class is_word (q_name q) word_not_paren); [reflexivity|].
    destruct (q_name q); [discriminate|assumption].
  - apply (parens_class is_word _ word_not_paren).
    destruct (q_name q); [discriminate|assumption].
Qed.

Lemma replace_series_refs_parens c : parens (replace_series_refs c) = parens c.
Proof.
  rewrite replace_series_refs_spec. unfold normalize_amended, normalize, bare_refs.
  rewrite !str_replace_parens by (discriminate || reflexivity).
  rewrite scan_parens by apply quiet_series_ref. reflexivity.
Qed.

(* ================================================================== *)
(** ** [_clean_quotes] *)
(* ================================================================== *)

Lemma is_quote_inv q : is_quote q = true -> q = squote \/ q = dquote.
Proof.
  unfold is_quote. intros H. apply orb_true_iff in H as [H|H];
    apply Ascii.eqb_eq in H; auto.
Qed.

Lemma endswith_snoc q b : endswith [q] (b ++ [q]) = true.
Proof.
  unfold endswith. rewrite rev_app_distr. simpl. now rewrite Ascii.eqb_refl.
Qed.

Lemma endswith_inv q t : endswith [q] t = true -> exists b, t = b ++ [q].
Proof.
  unfold endswith. intros H. apply startswith_inv in H as [r H].
  simpl in H. exists (rev r). now rewrite <- (rev_involutive t), H.
Qed.

Lemma startswith_one q t : startswith [q] t = true -> exists r, t = q :: r.
Proof. intros H. apply startswith_inv in H as [r ->]. now exists r. Qed.

Lemma clean_quotes_wrapped s q body :
  is_quote q = true -> strip s = [q] ++ body ++ [q] -> _clean_quotes s = body.
Proof.
  intros Hq Hs. unfold _clean_quotes. rewrite Hs.
  assert (C : (startswith "'" ([q] ++ body ++ [q]) &&
               endswith "'" ([q] ++ body ++ [q])
               || startswith [dquote] ([q] ++ body ++ [q]) &&
                  endswith [dquote] ([q] ++ body ++ [q])) = true).
  { destruct (is_quote_inv q Hq) as [-> | ->].
    - change ([squote] ++ body ++ [squote]) with ((squote :: body) ++ [squote]).
      now rewrite (endswith_snoc squote).
    - change ([dquote] ++ body ++ [dquote]) with ((dquote :: body) ++ [dquote]).
      now rewrite (endswith_snoc dquote). }
  rewrite C. cbn [app tl]. apply removelast_last.
Qed.

Lemma same_quote_ends q t :
  is_quote q = true -> startswith [q] t && endswith [q] t = true ->
  wrapped t \/ lone_quote t.
Proof.
  intros Hq H. apply andb_true_iff in H as [H1 H2].
  apply startswith_one in H1 as [r ->]. apply endswith_inv in H2 as [b Hb].
  destruct b as [|x b].
  - right. exists q. split; [assumption|]. simpl in Hb. congruence.
  - left. injection Hb as <- ->. exists q, b. now split.
Qed.

Lemma clean_quotes_plain s :
  ~ wrapped (strip s) -> ~ lone_quote (strip s) -> _clean_quotes s = strip s.
Proof.
  intros Hw Hl. unfold _clean_quotes.
  destruct (startswith "'" (strip s) && endswith "'" (strip s)) eqn:C1.
  { destruct (same_quote_ends squote (strip s) eq_refl C1); contradiction. }
  destruct (startswith [dquote] (strip s) && endswith [dquote] (strip s)) eqn:C2.
  { destruct (same_quote_ends dquote (strip s) eq_refl C2); contradiction. }
  reflexivity.
Qed.

(* ================================================================== *)
(** ** The alias table *)
(* ================================================================== *)

Lemma sql_func_unknown f : ~ In f known_funcs -> sql_func f = upper f.
Proof.
  unfold known_funcs, sql_func, FUNC_MAP. cbn [map fst In dict_get]. intros H.
  rewrite !str_eqb_neq; [reflexivity|..]; intros E; apply H; tauto.
Qed.

(* ================================================================== *)
(** ** Blanks and quotes *)
(* ================================================================== *)

Ltac use_ok :=
  repeat match goal with
         | H : ?x = true |- context [?x] => rewrite H
         end.

Lemma tight_quoted_ok q : quoted_ok q = true -> quoted_ok (tight_quoted q) = true.
Proof. unfold quoted_ok. intros H. split_ok. cbn. now use_ok. Qed.

Lemma tight_column_ok c : column_ok c = true -> column_ok (tight_column c) = true.
Proof.
  unfold column_ok. intros H. split_ok. cbn [tight_column c_pre c_quoted c_post].
  now rewrite tight_quoted_ok.
Qed.

Lemma tight_call_ok c : call_ok c = true -> call_ok (tight_call c) = true.
Proof. unfold call_ok. intros H. split_ok. cbn. now use_ok. Qed.

Lemma tight_groupby_ok e :
  groupby_ok e = true -> groupby_ok (tight_groupby e) = true.
Proof.
  unfold groupby_ok. intros H. split_ok.
  cbn [tight_groupby gb_pre gb_key gb_post gb_gap gb_col gb_call].
  now rewrite tight_quoted_ok, tight_column_ok, tight_call_ok.
Qed.

Lemma tight_sort_ok e : sort_ok e = true -> sort_ok (tight_sort e) = true.
Proof.
  unfold sort_ok. intros H. split_ok. cbn [tight_sort so_pre so_col so_asc so_post].
  rewrite tight_quoted_ok by assumption. now destruct (so_asc e).
Qed.

Lemma tight_chained_ok e :
  chained_ok e = true -> chained_ok (tight_chained e) = true.
Proof.
  unfold chained_ok. intros H. split_ok.
  cbn [tight_chained ch_cond ch_gap ch_col ch_call].
  use_ok. now rewrite tight_column_ok, tight_call_ok.
Qed.

Lemma tight_col_agg_ok e :
  col_agg_ok e = true -> col_agg_ok (tight_col_agg e) = true.
Proof.
  unfold col_agg_ok. intros H. split_ok. cbn [tight_col_agg ca_col ca_call].
  now rewrite tight_quoted_ok, tight_call_ok.
Qed.

Lemma tight_sort_sql e table : sort_sql (tight_sort e) table = sort_sql e table.
Proof. unfold sort_sql. cbn. now destruct (so_asc e). Qed.

(* ================================================================== *)
(** ** The filter template and the plain column select *)
(* ================================================================== *)

Lemma rstrip_blank w : blank w = true -> rstrip w = [].
Proof.
  unfold blank. induction w as [|c w IH]; [reflexivity|]. simpl. intros H.
  apply andb_true_iff in H as [Hc Hw]. now rewrite IH, Hc.
Qed.

Lemma strip_filter lead cond tail :
  blank lead = true -> blank tail = true ->
  strip (lead ++ filter_text cond tail) = filter_text cond [].
Proof.
  intros Hl Ht. unfold strip, filter_text.
  rewrite lstrip_frame by (assumption || reflexivity).
  push_rstrip. now rewrite rstrip_blank.
Qed.

Lemma chained_not_filter cond :
  no_rbracket cond = true ->
  re_match pat_chained (filter_text cond []) = None.
Proof.
  intros Hc. unfold re_match, pat_chained, filter_text.
  rewrite run_lit_seq, run_seq. apply run_dot_group_none.
  apply hopeless_skip; [apply wants_rbracket_lit|assumption|].
  apply hopeless_rbracket; [|reflexivity].
  apply hopeless_end; [apply wants_rbracket_lit|reflexivity].
Qed.

Lemma match_filter cond :
  one_line cond = true -> no_rbracket cond = true ->
  re_match pat_filter (filter_text cond []) = Some ([Some cond], []).
Proof.
  intros H1 Hc. unfold re_match, pat_filter, filter_text.
  rewrite run_lit_seq, run_seq.
  apply run_dot_group_last; [assumption| |reflexivity].
  apply hopeless_end; [apply wants_rbracket_lit|reflexivity].
Qed.

Theorem filter_general lead cond tail table :
  blank lead = true -> one_line cond = true -> no_rbracket cond = true ->
  blank tail = true ->
  python_to_sql (lead ++ filter_text cond tail) table
  = Returns ("SELECT * FROM " ++ table ++ " WHERE " ++
             replace_series_refs cond ++ ";").
Proof.
  intros Hl H1 Hc Ht. unfold python_to_sql. rewrite strip_filter by assumption.
  replace (re_match pat_groupby _) with (@None result) by reflexivity.
  replace (re_match pat_sort _) with (@None result) by reflexivity.
  now rewrite chained_not_filter, match_filter.
Qed.

(** *** Texts the normalizer leaves alone *)

Lemma scan_none find s :
  (forall a b, s = a ++ b -> find b = None) -> scan find 0 s = s.
Proof.
  induction s as [|c s IH]; intros H; [reflexivity|].
  cbn [scan]. rewrite (H [] (c :: s) eq_refl). f_equal. apply IH.
  intros a b ->. now apply (H (c :: a) b).
Qed.

Lemma startswith_In old t x : startswith old t = true -> In x old -> In x t.
Proof.
  intros H Hx. apply startswith_inv in H as [r ->]. apply in_or_app. now left.
Qed.

Lemma str_replace_absent old new s x :
  In x old -> ~ In x s -> str_replace old new s = s.
Proof.
  intros Hx Hs. destruct old as [|o old]; [contradiction|].
  unfold str_replace. apply scan_none. intros a b ->. unfold occurrence.
  destruct (startswith (o :: old) b) eqn:E; [|reflexivity].
  exfalso. apply Hs. apply in_or_app. right. now apply (startswith_In _ _ _ E).
Qed.

Lemma bare_refs_absent same s : ~ In "["%char s -> bare_refs same s = s.
Proof.
  intros Hs. apply scan_none. intros a b ->. unfold series_ref.
  destruct (startswith "df[" b) eqn:E; [|reflexivity].
  exfalso. apply Hs. apply in_or_app. right.
  apply (startswith_In _ _ _ E). cbn. tauto.
Qed.

Lemma plain_not_In s x :
  plain s = true -> is_quote x = false -> is_word x = false -> ~ In x s.
Proof.
  unfold plain. intros H Hq Hw Hin.
  rewrite forallb_forall in H. specialize (H x Hin). now rewrite Hq, Hw in H.
Qed.

Lemma replace_series_refs_plain s : plain s = true -> replace_series_refs s = s.
Proof.
  intros H. rewrite replace_series_refs_spec. unfold normalize_amended, normalize.
  rewrite bare_refs_absent by now apply plain_not_In.
  rewrite (str_replace_absent "==" "=" s "="%char);
    [|cbn; tauto|now apply plain_not_In].
  rewrite (str_replace_absent "&" "AND" s "&"%char);
    [|cbn; tauto|now apply plain_not_In].
  rewrite (str_replace_absent "|" "OR" s "|"%char);
    [|cbn; tauto|now apply plain_not_In].
  apply (str_replace_absent "df." "" s "."%char);
    [cbn; tauto|now apply plain_not_In].
Qed.

Lemma forallb_impl (p q : ascii -> bool) s :
  (forall c, p c = true -> q c = true) -> forallb p s = true -> forallb q s = true.
Proof.
  intros Hpq. induction s as [|c s IH]; [reflexivity|]. simpl. intros H.
  apply andb_true_iff in H as [Hc Hs]. now rewrite (Hpq c Hc), IH.
Qed.

Lemma ident_forall w : ident w = true -> forallb is_word w = true.
Proof. destruct w; [discriminate|auto]. Qed.

Lemma quoted_plain q : quoted_ok q = true -> plain (quoted_text q []) = true.
Proof.
  unfold quoted_ok, quoted_text, plain. intros H. split_ok.
  rewrite !forallb_app. cbn. use_ok. cbn.
  rewrite (forallb_impl is_word); [reflexivity| |now apply ident_forall].
  intros c ->. apply orb_true_r.
Qed.

Lemma quoted_one_line q : quoted_ok q = true -> one_line (quoted_text q []) = true.
Proof.
  unfold quoted_ok, quoted_text. intros H. split_ok. cbn.
  rewrite quote_is_dot by assumption. rewrite forallb_app. cbn.
  rewrite (quote_is_dot (q_close q)) by assumption.
  rewrite (forallb_impl is_word is_dot _ word_is_dot); [reflexivity|].
  now apply ident_forall.
Qed.

Lemma quoted_no_rbracket_text q :
  quoted_ok q = true -> no_rbracket (quoted_text q []) = true.
Proof.
  intros H. unfold quoted_text. rewrite app_nil_r.
  rewrite app_assoc. rewrite <- app_assoc. now apply quoted_no_rbracket.
Qed.

(** A plain column select is taken by the filter template. *)
Lemma col_select_general q table :
  quoted_ok q = true ->
  python_to_sql ("df[" ++ quoted_text q "]") table
  = Returns ("SELECT * FROM " ++ table ++ " WHERE " ++ quoted_text q [] ++ ";").
Proof.
  intros Hq.
  pose proof (filter_general [] (quoted_text q []) [] table eq_refl
                (quoted_one_line q Hq) (quoted_no_rbracket_text q Hq) eq_refl) as H.
  rewrite replace_series_refs_plain in H by now apply quoted_plain.
  rewrite <- H. f_equal. unfold filter_text, quoted_text. cbn.
  now rewrite <- !app_assoc.
Qed.

(** *** Templates anchored at the end *)

Lemma run_at_end r : forall s g k x,
  ends_with_eos r = true ->
  run r s g k = Some x ->
  exists s' g', k s' g' = Some x /\ at_end s' = true.
Proof.
  induction r as [|c|p|p|r1 IH1 r2 IH2|r1 IH1 r2 IH2|r1 IH1|n r1 IH1|];
    intros s g k x He H; try discriminate He.
  - cbn [run] in H. cbn in He.
    apply run_binds in H as (s1 & g1 & H & _). now apply IH2 in H.
  - cbn [run] in H. destruct (at_end s) eqn:E; [|discriminate]. eauto.
Qed.

Lemma re_match_at_end r s m :
  ends_with_eos r = true -> re_match r s = Some m -> at_end (snd m) = true.
Proof.
  unfold re_match. intros He H.
  apply run_at_end in H as (s' & g' & H & E); [|assumption].
  injection H as <-. exact E.
Qed.

(** The shapes on their own. *)
Lemma groupby_alone e table :
  groupby_ok e = true ->
  python_to_sql (groupby_text e []) table = Returns (groupby_sql e table).
Proof. intros. now apply (groupby_general [] e [] table). Qed.

Lemma sort_alone e table :
  sort_ok e = true ->
  python_to_sql (sort_text e []) table = Returns (sort_sql e table).
Proof. intros. now apply (sort_general [] e [] table). Qed.

Lemma chained_alone e table :
  chained_ok e = true ->
  python_to_sql (chained_text e []) table = Returns (chained_sql e table).
Proof. intros. now apply (chained_general [] e [] table). Qed.

Lemma col_agg_alone e table :
  col_agg_ok e = true ->
  python_to_sql (col_agg_text e []) table = Returns (col_agg_sql e table).
Proof. intros. now apply (col_agg_general [] e [] table). Qed.

(* ================================================================== *)
(** ** The claims *)
(* ================================================================== *)

(** C1.  The claim: for the input df['age'] and the default table,
    [python_to_sql] returns SELECT age FROM employees; , a plain column
    select being translated to SELECT C FROM table; .  The code does
    not: template 4, the filter, is tried before template 6 and already
    matches, with the quoted name as its condition.  This theorem records
    what the code returns on the claim's input, and on every plain
    column select. *)
Theorem col_select_taken_by_filter :
  python_to_sql "df['age']" employees
  = Returns "SELECT * FROM employees WHERE 'age';"
  /\
  (forall q table,
      quoted_ok q = true ->
      python_to_sql ("df[" ++ quoted_text q "]") table
      = Returns ("SELECT * FROM " ++ table ++ " WHERE " ++ quoted_text q [] ++
                 ";")).
Proof.
  split; [vm_compute; reflexivity|apply col_select_general].
Qed.

(** The same on a name in double quotes. *)
Lemma col_select_taken_by_filter_witness :
  quoted_ok (Quoted dquote "id" dquote) = true /\
  python_to_sql ("df[" ++ [dquote] ++ "id" ++ [dquote] ++ "]") "t"
  = Returns ("SELECT * FROM t WHERE " ++ [dquote] ++ "id" ++ [dquote] ++ ";").
Proof.
  refine (conj eq_refl _).
  exact (proj2 col_select_taken_by_filter (Quoted dquote "id" dquote) "t"
           eq_refl).
Defined.

(** C2.  For every input and every table name [python_to_sql] raises
    nothing and returns a string, and when none of the six templates
    matches the stripped input the string is the sentinel. *)
Theorem never_raises_and_sentinel code table :
  (exists sql, python_to_sql code table = Returns sql) /\
  (unrecognized (strip code) -> python_to_sql code table = Returns ERROR_MSG).
Proof.
  split; [apply python_to_sql_returns|].
  unfold unrecognized, python_to_sql.
  intros (H1 & H2 & H3 & H4 & H5 & H6).
  now rewrite H1, H2, H3, H4, H5, H6.
Qed.

(** The input of the description is recognised by no template. *)
Lemma never_raises_and_sentinel_witness :
  unrecognized (strip "not_a_pattern(1,2,3)") /\
  python_to_sql "not_a_pattern(1,2,3)" employees = Returns ERROR_MSG.
Proof.
  assert (H : unrecognized (strip "not_a_pattern(1,2,3)")).
  { unfold unrecognized. repeat split; vm_compute; reflexivity. }
  split; [exact H|].
  exact (proj2 (never_raises_and_sentinel "not_a_pattern(1,2,3)" employees) H).
Defined.

(** C3.  The chained filter and aggregate: on the input of the
    description the result is the SQL of the description; in general the
    condition runs up to the last closing bracket before the bracketed
    column and the call, it goes through the normalizer, and the result
    is SELECT FUNC(C) FROM table WHERE cond; . *)
Theorem chained_filter_aggregate :
  python_to_sql
    "df[(df['age'] > 30) & (df['city'] == 'Chennai')]['salary'].sum()"
    employees
  = Returns
      "SELECT SUM(salary) FROM employees WHERE (age > 30) AND (city = 'Chennai');"
  /\
  (forall lead e rest table,
      blank lead = true -> chained_ok e = true -> no_rbracket rest = true ->
      python_to_sql (lead ++ chained_text e rest) table
      = Returns ("SELECT " ++ sql_func (f_name (ch_call e)) ++ "(" ++
                 column_name (ch_col e) ++ ") FROM " ++ table ++ " WHERE " ++
                 replace_series_refs (ch_cond e) ++ ";")).
Proof.
  split; [vm_compute; reflexivity|].
  intros. now apply chained_general.
Qed.

(** A condition with brackets of its own, blanks, mixed quotes and a
    trailing comment. *)
Lemma chained_filter_aggregate_witness :
  blank " " = true /\
  chained_ok (Chained "df['a'] > df['b']" " "
                      (Column " " (Quoted squote "c" dquote) "")
                      (Call "" " " "max" "" " ")) = true /\
  no_rbracket " # done" = true /\
  python_to_sql (" df[df['a'] > df['b']] [ 'c" ++ [dquote] ++ "]. max( ) # done")
                "t"
  = Returns "SELECT MAX(c) FROM t WHERE a > b;".
Proof.
  refine (conj eq_refl (conj eq_refl (conj eq_refl _))).
  exact (proj2 chained_filter_aggregate " "
           (Chained "df['a'] > df['b']" " "
                    (Column " " (Quoted squote "c" dquote) "")
                    (Call "" " " "max" "" " "))
           " # done" "t" eq_refl eq_refl eq_refl).
Defined.



(** C5.  Every input of the sort shape is translated to
    SELECT * FROM table ORDER BY C ASC; when the ascending argument is
    left out or is True, and to ... ORDER BY C DESC; when it is False;
    so is the input of the description. *)
Theorem sort_order_default_asc :
  (forall lead pre col post rest table,
      blank lead = true -> blank pre = true -> quoted_ok col = true ->
      blank post = true ->
      python_to_sql (lead ++ sort_text (Sort pre col Omitted post) rest) table
      = Returns ("SELECT * FROM " ++ table ++ " ORDER BY " ++ q_name col ++
                 " ASC;")
      /\
      forall w1 w2 w3 w4,
        blank w1 = true -> blank w2 = true -> blank w3 = true ->
        blank w4 = true ->
        python_to_sql
          (lead ++ sort_text (Sort pre col (Given w1 w2 w3 w4 true) post) rest)
          table
        = Returns ("SELECT * FROM " ++ table ++ " ORDER BY " ++ q_name col ++
                   " ASC;")
        /\
        python_to_sql
          (lead ++ sort_text (Sort pre col (Given w1 w2 w3 w4 false) post) rest)
          table
        = Returns ("SELECT * FROM " ++ table ++ " ORDER BY " ++ q_name col ++
                   " DESC;"))
  /\
  python_to_sql "df.sort_values('salary', ascending=False)" employees
  = Returns "SELECT * FROM employees ORDER BY salary DESC;".
Proof.
  split; [|vm_compute; reflexivity].
  intros lead pre col post rest table Hl Hp Hc Hq.
  split; [|intros w1 w2 w3 w4 H1 H2 H3 H4; split];
    (rewrite sort_general;
     [reflexivity|assumption|
      unfold sort_ok; cbn [so_pre so_col so_asc so_post ascending_ok];
      now use_ok]).
Qed.

(** The three forms of the argument, with blanks. *)
Lemma sort_order_default_asc_witness :
  blank "" = true /\ blank " " = true /\
  quoted_ok (Quoted squote "age" squote) = true /\
  python_to_sql "df.sort_values( 'age')" "people"
  = Returns "SELECT * FROM people ORDER BY age ASC;" /\
  python_to_sql "df.sort_values( 'age' ,ascending = True)" "people"
  = Returns "SELECT * FROM people ORDER BY age ASC;" /\
  python_to_sql "df.sort_values( 'age' ,ascending = False)" "people"
  = Returns "SELECT * FROM people ORDER BY age DESC;".
Proof.
  pose proof (proj1 sort_order_default_asc "" " " (Quoted squote "age" squote)
                "" "" "people" eq_refl eq_refl eq_refl eq_refl) as [H0 H1].
  specialize (H1 " " "" " " " " eq_refl eq_refl eq_refl eq_refl) as [H1 H2].
  exact (conj eq_refl (conj eq_refl (conj eq_refl (conj H0 (conj H1 H2))))).
Defined.

(** C6.  The six known aggregate names map to AVG, SUM, COUNT, MIN, MAX
    and MEDIAN; any other name is put in upper case and used as it is.
    That is the name the program emits, for every function name: an
    input of the column aggregate shape, of the groupby shape or of the
    chained shape is translated with the alias of its function name, no
    name being refused; df['x'].std() gives SELECT STD(x) FROM
    employees; . *)
Theorem aggregate_aliases :
  (sql_func "mean" = "AVG" /\ sql_func "sum" = "SUM" /\
   sql_func "count" = "COUNT" /\ sql_func "min" = "MIN" /\
   sql_func "max" = "MAX" /\ sql_func "median" = "MEDIAN") /\
  (forall f, ~ In f ["mean"; "sum"; "count"; "min"; "max"; "median"] ->
             sql_func f = upper f) /\
  (forall e table, col_agg_ok e = true ->
     python_to_sql (col_agg_text e []) table
     = Returns ("SELECT " ++ sql_func (f_name (ca_call e)) ++ "(" ++
                q_name (ca_col e) ++ ") FROM " ++ table ++ ";")) /\
  (forall e table, groupby_ok e = true ->
     python_to_sql (groupby_text e []) table
     = Returns ("SELECT " ++ q_name (gb_key e) ++ ", " ++
                sql_func (f_name (gb_call e)) ++ "(" ++
                column_name (gb_col e) ++ ") FROM " ++ table ++
                " GROUP BY " ++ q_name (gb_key e) ++ ";")) /\
  (forall e table, chained_ok e = true ->
     python_to_sql (chained_text e []) table
     = Returns ("SELECT " ++ sql_func (f_name (ch_call e)) ++ "(" ++
                column_name (ch_col e) ++ ") FROM " ++ table ++ " WHERE " ++
                replace_series_refs (ch_cond e) ++ ";")) /\
  python_to_sql "df['x'].std()" employees
  = Returns "SELECT STD(x) FROM employees;".
Proof.
  split; [repeat split; reflexivity|].
  split; [exact sql_func_unknown|].
  split; [exact col_agg_alone|].
  split; [exact groupby_alone|].
  split; [exact chained_alone|].
  reflexivity.
Qed.

(** [std] is not in the table, [mean] is: a column aggregate with each
    of the two, the second one with blanks in the call. *)
Lemma aggregate_aliases_witness :
  ~ In "std" ["mean"; "sum"; "count"; "min"; "max"; "median"] /\
  sql_func "std" = "STD" /\
  col_agg_ok (ColAgg (Quoted squote "pay" squote)
                     (Call "" "" "std" "" "")) = true /\
  python_to_sql "df['pay'].std()" "sales"
  = Returns "SELECT STD(pay) FROM sales;" /\
  col_agg_ok (ColAgg (Quoted squote "salary" squote)
                     (Call "" " " "mean" "" " ")) = true /\
  python_to_sql "df['salary']. mean( )" "sales"
  = Returns "SELECT AVG(salary) FROM sales;".
Proof.
  assert (H : ~ In "std" ["mean"; "sum"; "count"; "min"; "max"; "median"]).
  { cbn. intros H. repeat destruct H as [H|H]; try discriminate H. exact H. }
  refine (conj H (conj _ (conj eq_refl (conj _ (conj eq_refl _))))).
  - exact (proj1 (proj2 aggregate_aliases) "std" H).
  - exact (proj1 (proj2 (proj2 aggregate_aliases))
             (ColAgg (Quoted squote "pay" squote) (Call "" "" "std" "" ""))
             "sales" eq_refl).
  - exact (proj1 (proj2 (proj2 aggregate_aliases))
             (ColAgg (Quoted squote "salary" squote)
                     (Call "" " " "mean" "" " "))
             "sales" eq_refl).
Defined.

(** C7, as stated: the normalizer performs exactly the five rewrites of
    the description, the first one on the references df['field'] and
    df[(double quote)field(double quote)].  Counterexample: a reference
    that opens with a single quote and closes with a double quote is
    none of the two forms, so the five rewrites as described leave the
    condition as it is; the code rewrites the reference all the same. *)
Lemma normalizer_mixed_quotes_counterexample :
  normalize_claimed ("df['a" ++ [dquote] ++ "] > 1")
  = "df['a" ++ [dquote] ++ "] > 1" /\
  _replace_series_refs (Some ("df['a" ++ [dquote] ++ "] > 1"))
  = Returns "a > 1" /\
  _replace_series_refs (Some ("df['a" ++ [dquote] ++ "] > 1"))
  <> Returns (normalize_claimed ("df['a" ++ [dquote] ++ "] > 1")).
Proof.
  split; [vm_compute; reflexivity|].
  split; [vm_compute; reflexivity|].
  vm_compute. discriminate.
Qed.

(** C7, amended.  For every condition the normalizer performs exactly
    these rewrites in this order: (1) every reference df[q1 field q2],
    where each of q1 and q2 is a single or a double quote and the two
    need not be the same, becomes the bare field; (2) every == becomes
    =; (3) every & becomes AND; (4) every | becomes OR; (5) any remaining
    df. is stripped.  Parentheses pass through: the result has the
    parentheses of the condition, in the same order. *)
Theorem normalizer_steps condition :
  _replace_series_refs (Some condition)
  = Returns
      (str_replace "df." ""
         (str_replace "|" "OR"
            (str_replace "&" "AND"
               (str_replace "==" "=" (bare_refs false condition)))))
  /\ parens (replace_series_refs condition) = parens condition.
Proof.
  split; [|apply replace_series_refs_parens].
  cbn [_replace_series_refs]. f_equal. apply replace_series_refs_spec.
Qed.

(** C8, as stated: blanks between tokens inside brackets and
    parentheses are tolerated within every shape, so that
    df[ 'salary' ].mean() and df['salary'].mean() give the same SQL, and
    no other variation (double brackets, mixed quote styles, variables
    instead of literals) is recognised.  Counterexample: the first text
    is refused while the second is translated; a name that opens with a
    single and closes with a double quote is translated; and a double
    bracket selection and a variable are taken as filter conditions. *)
Lemma blanks_in_brackets_counterexample :
  python_to_sql "df[ 'salary' ].mean()" employees = Returns ERROR_MSG /\
  python_to_sql "df['salary'].mean()" employees
  = Returns "SELECT AVG(salary) FROM employees;" /\
  python_to_sql ("df['salary" ++ [dquote] ++ "].mean()") employees
  = Returns "SELECT AVG(salary) FROM employees;" /\
  python_to_sql "df[['a','b']]" employees
  = Returns "SELECT * FROM employees WHERE ['a','b'];" /\
  python_to_sql "df[col]" employees
  = Returns "SELECT * FROM employees WHERE col;".
Proof. repeat split; vm_compute; reflexivity. Qed.

(** C8, amended.  Where the templates have a run of blanks, blanks are
    tolerated: in the groupby, sort and chained shapes between the
    tokens inside the parentheses and the brackets, and in the groupby,
    chained and column aggregate shapes around the dot, before the call
    parentheses and inside them; and the two quotes of a name need not
    be the same.  Such a text is accepted and translated, and to the
    SQL of the same expression written without blanks and in single
    quotes: both give the query made of the names alone.  So
    df['salary'] . mean ( ) and df['salary'].mean() give the same
    SQL. *)
Theorem blanks_and_quotes_tolerated table :
  (forall e, groupby_ok e = true ->
     python_to_sql (groupby_text e []) table = Returns (groupby_sql e table) /\
     python_to_sql (groupby_text (tight_groupby e) []) table
     = Returns (groupby_sql e table)) /\
  (forall e, sort_ok e = true ->
     python_to_sql (sort_text e []) table = Returns (sort_sql e table) /\
     python_to_sql (sort_text (tight_sort e) []) table
     = Returns (sort_sql e table)) /\
  (forall e, chained_ok e = true ->
     python_to_sql (chained_text e []) table = Returns (chained_sql e table) /\
     python_to_sql (chained_text (tight_chained e) []) table
     = Returns (chained_sql e table)) /\
  (forall e, col_agg_ok e = true ->
     python_to_sql (col_agg_text e []) table = Returns (col_agg_sql e table) /\
     python_to_sql (col_agg_text (tight_col_agg e) []) table
     = Returns (col_agg_sql e table)) /\
  python_to_sql "df['salary'] . mean ( )" employees
  = Returns "SELECT AVG(salary) FROM employees;" /\
  python_to_sql "df['salary'].mean()" employees
  = Returns "SELECT AVG(salary) FROM employees;".
Proof.
  split; [|split; [|split; [|split; [|split; reflexivity]]]]; intros e He.
  - split; [exact (groupby_alone e table He)|].
    exact (groupby_alone _ table (tight_groupby_ok e He)).
  - split; [exact (sort_alone e table He)|].
    rewrite (sort_alone _ table (tight_sort_ok e He)).
    now rewrite tight_sort_sql.
  - split; [exact (chained_alone e table He)|].
    exact (chained_alone _ table (tight_chained_ok e He)).
  - split; [exact (col_agg_alone e table He)|].
    exact (col_agg_alone _ table (tight_col_agg_ok e He)).
Qed.

(** Blanks around the dot and in the call, and mixed quotes; a groupby
    with blanks at every place and a double-quoted key. *)
Lemma blanks_and_quotes_tolerated_witness :
  col_agg_ok (ColAgg (Quoted dquote "salary" squote)
                     (Call " " " " "mean" " " " ")) = true /\
  python_to_sql ("df[" ++ [dquote] ++ "salary'] . mean ( )") employees
  = Returns "SELECT AVG(salary) FROM employees;" /\
  python_to_sql "df['salary'].mean()" employees
  = Returns "SELECT AVG(salary) FROM employees;" /\
  groupby_ok (Groupby " " (Quoted dquote "dept" dquote) " " " "
                      (Column " " (Quoted squote "pay" squote) " ")
                      (Call " " " " "sum" " " " ")) = true /\
  python_to_sql
    ("df.groupby( " ++ [dquote] ++ "dept" ++ [dquote] ++
     " ) [ 'pay' ] . sum ( )") employees
  = Returns "SELECT dept, SUM(pay) FROM employees GROUP BY dept;" /\
  python_to_sql "df.groupby('dept')['pay'].sum()" employees
  = Returns "SELECT dept, SUM(pay) FROM employees GROUP BY dept;".
Proof.
  refine (conj eq_refl (conj _ (conj _ (conj eq_refl (conj _ _))))).
  - exact (proj1 (proj1 (proj2 (proj2 (proj2
             (blanks_and_quotes_tolerated employees))))
             (ColAgg (Quoted dquote "salary" squote)
                     (Call " " " " "mean" " " " ")) eq_refl)).
  - exact (proj2 (proj1 (proj2 (proj2 (proj2
             (blanks_and_quotes_tolerated employees))))
             (ColAgg (Quoted dquote "salary" squote)
                     (Call " " " " "mean" " " " ")) eq_refl)).
  - exact (proj1 (proj1 (blanks_and_quotes_tolerated employees)
             (Groupby " " (Quoted dquote "dept" dquote) " " " "
                      (Column " " (Quoted squote "pay" squote) " ")
                      (Call " " " " "sum" " " " ")) eq_refl)).
  - exact (proj2 (proj1 (blanks_and_quotes_tolerated employees)
             (Groupby " " (Quoted dquote "dept" dquote) " " " "
                      (Column " " (Quoted squote "pay" squote) " ")
                      (Call " " " " "sum" " " " ")) eq_refl)).
Defined.

(** C9, as stated: [_clean_quotes] removes the pair of quotes around a
    wrapped string and returns any other string unchanged.
    Counterexample: a string with blanks around it is not wrapped, and
    it comes back without the blanks. *)
Lemma clean_quotes_strips_counterexample :
  ~ wrapped " a " /\ _clean_quotes " a " = "a" /\ _clean_quotes " a " <> " a ".
Proof.
  split; [|split; [reflexivity|discriminate]].
  intros (q & body & Hq & H). injection H as <- _. discriminate Hq.
Qed.

(** C9, amended.  [_clean_quotes] first strips the blanks around its
    argument.  When what is left is wrapped in a pair of equal quotes,
    single or double, the result is the text between them; when it is
    not wrapped, and is not a quote on its own, the result is the
    stripped string. *)
Theorem clean_quotes_after_strip s :
  (forall q body,
      is_quote q = true -> strip s = [q] ++ body ++ [q] ->
      _clean_quotes s = body) /\
  (~ wrapped (strip s) -> ~ lone_quote (strip s) -> _clean_quotes s = strip s).
Proof.
  split; [intros q body; apply clean_quotes_wrapped|apply clean_quotes_plain].
Qed.

(** A wrapped string with blanks around it. *)
Lemma clean_quotes_after_strip_witness :
  is_quote squote = true /\ strip " 'abc' " = [squote] ++ "abc" ++ [squote] /\
  _clean_quotes " 'abc' " = "abc".
Proof.
  refine (conj eq_refl (conj eq_refl _)).
  exact (proj1 (clean_quotes_after_strip " 'abc' ") squote "abc" eq_refl eq_refl).
Defined.

(** C10, as stated: a text whose head has the shape of template 1, 2, 3
    or 5 is translated as that head alone, whatever follows.
    Counterexample: after a column aggregate, a trailing text that ends
    with a closing bracket makes template 4 match first, and after a
    chained expression a trailing bracketed column and call extend the
    condition. *)
Lemma trailing_text_counterexample :
  python_to_sql "df['x'].std()" employees
  = Returns "SELECT STD(x) FROM employees;" /\
  python_to_sql "df['x'].std() ]" employees
  = Returns "SELECT * FROM employees WHERE 'x'].std() ;" /\
  python_to_sql "df[a]['c'].sum()" employees
  = Returns "SELECT SUM(c) FROM employees WHERE a;" /\
  python_to_sql "df[a]['c'].sum()]['d'].max()" employees
  = Returns "SELECT MAX(d) FROM employees WHERE a]['c'].sum();".
Proof. repeat split; vm_compute; reflexivity. Qed.

(** C10, amended.  Templates 1, 2, 3 and 5 are anchored at the start of
    the stripped input only.  After a text of the groupby or the sort
    shape any trailing text is ignored; after a text of the chained or
    the column aggregate shape a trailing text without a closing bracket
    is ignored: the result is the translation of the shape alone.
    Templates 4 and 6 match up to the end of the text only. *)
Theorem trailing_text_ignored :
  (forall lead rest table,
      blank lead = true ->
      (forall e, groupby_ok e = true ->
         python_to_sql (lead ++ groupby_text e rest) table
         = python_to_sql (groupby_text e []) table) /\
      (forall e, sort_ok e = true ->
         python_to_sql (lead ++ sort_text e rest) table
         = python_to_sql (sort_text e []) table) /\
      (no_rbracket rest = true ->
       (forall e, chained_ok e = true ->
          python_to_sql (lead ++ chained_text e rest) table
          = python_to_sql (chained_text e []) table) /\
       (forall e, col_agg_ok e = true ->
          python_to_sql (lead ++ col_agg_text e rest) table
          = python_to_sql (col_agg_text e []) table)))
  /\
  (forall s m,
      re_match pat_filter s = Some m \/ re_match pat_col s = Some m ->
      at_end (snd m) = true).
Proof.
  split.
  - intros lead rest table Hl.
    split; [|split; [|intros Hr; split]]; intros e He.
    + rewrite (groupby_general lead e rest table Hl He).
      now rewrite (groupby_alone e table He).
    + rewrite (sort_general lead e rest table Hl He).
      now rewrite (sort_alone e table He).
    + rewrite (chained_general lead e rest table Hl He Hr).
      now rewrite (chained_alone e table He).
    + rewrite (col_agg_general lead e rest table Hl He Hr).
      now rewrite (col_agg_alone e table He).
  - intros s m [H|H]; now apply re_match_at_end in H.
Qed.

(** A method chained after a column aggregate. *)
Lemma trailing_text_ignored_witness :
  blank " " = true /\ no_rbracket ".head(5)" = true /\
  col_agg_ok (ColAgg (Quoted squote "x" squote) (Call "" "" "std" "" ""))
  = true /\
  python_to_sql " df['x'].std().head(5)" employees
  = python_to_sql "df['x'].std()" employees.
Proof.
  refine (conj eq_refl (conj eq_refl (conj eq_refl _))).
  exact (proj2 (proj2 (proj2 (proj1 trailing_text_ignored " " ".head(5)"
                                       employees eq_refl)) eq_refl)
           (ColAgg (Quoted squote "x" squote) (Call "" "" "std" "" ""))
           eq_refl).
Defined.

(* ================================================================== *)
(** * Further properties of the program *)
(* ================================================================== *)

(* ================================================================== *)
(** ** Blanks around the input *)
(* ================================================================== *)

Lemma lstrip_app_blank lead s : blank lead = true -> lstrip (lead ++ s) = lstrip s.
Proof.
  unfold blank. induction lead as [|c lead IH]; [reflexivity|]. simpl. intros H.
  apply andb_true_iff in H as [Hc Hl]. rewrite Hc. auto.
Qed.

Lemma rstrip_app_blank s tail : blank tail = true -> rstrip (s ++ tail) = rstrip s.
Proof.
  intros H. induction s as [|c s IH]; simpl.
  - now apply rstrip_blank.
  - now rewrite IH.
Qed.

Lemma lstrip_blank_nil s : blank s = true -> lstrip s = [].
Proof.
  intros H. rewrite <- (app_nil_r s). now rewrite lstrip_app_blank.
Qed.

Lemma blank_app a b : blank (a ++ b) = blank a && blank b.
Proof. apply forallb_app. Qed.

(** Either [s] is blank, or its first visible character survives
    [lstrip] with all that follows. *)
Lemma lstrip_app s t :
  lstrip (s ++ t) = if blank s then lstrip t else lstrip s ++ t.
Proof.
  unfold blank. induction s as [|c s IH]; [reflexivity|]. simpl.
  destruct (is_space c); [exact IH|reflexivity].
Qed.

Lemma strip_surrounded lead s tail :
  blank lead = true -> blank tail = true ->
  strip (lead ++ s ++ tail) = strip s.
Proof.
  intros Hl Ht. unfold strip. rewrite lstrip_app_blank by assumption.
  rewrite lstrip_app. destruct (blank s) eqn:Hs.
  - now rewrite (lstrip_blank_nil tail), (lstrip_blank_nil s).
  - now apply rstrip_app_blank.
Qed.

(* ================================================================== *)
(** ** What a match consumes *)
(* ================================================================== *)

Lemma star_k_some_split p k s x :
  star_k p k s = Some x ->
  exists a b, s = a ++ b /\ forallb p a = true /\ k b = Some x.
Proof.
  induction s as [|c s IH]; simpl.
  - intros H. now exists [], [].
  - destruct (p c) eqn:Hc.
    + destruct (star_k p k s) as [y|] eqn:E.
      * intros H. injection H as ->.
        destruct (IH eq_refl) as (a & b & -> & Ha & Hb).
        exists (c :: a), b. simpl. now rewrite Hc, Ha.
      * intros H. now exists [], (c :: s).
    + intros H. now exists [], (c :: s).
Qed.

(** A successful run splits its text into what it consumed and what it
    left to the continuation, and the consumed part holds the literal
    characters of the pattern. *)
Lemma run_consumes r : forall s g k x,
  run r s g k = Some x ->
  exists u s' g',
    s = u ++ s' /\ k s' g' = Some x /\ (forall c, In c (must r) -> In c u).
Proof.
  induction r as [|c|p|p|r1 IH1 r2 IH2|r1 IH1 r2 IH2|r1 IH1|n r1 IH1|];
    intros s g k x H; cbn [run] in H.
  - exists [], s, g. simpl. intuition.
  - destruct s as [|a s]; [discriminate|].
    destruct (Ascii.eqb a c) eqn:E; [|discriminate].
    apply Ascii.eqb_eq in E. subst a.
    exists [c], s, g. simpl. intuition.
  - destruct s as [|a s]; [discriminate|]. destruct (p a); [|discriminate].
    exists [a], s, g. simpl. intuition.
  - apply star_k_some_split in H as (a & b & -> & _ & H).
    exists a, b, g. simpl. intuition.
  - apply IH1 in H as (u1 & s1 & g1 & -> & H & M1).
    apply IH2 in H as (u2 & s2 & g2 & -> & H & M2).
    exists (u1 ++ u2), s2, g2. rewrite <- app_assoc.
    repeat split; [assumption|]. simpl. intros c Hc.
    apply in_or_app. apply in_app_or in Hc as [Hc|Hc]; auto.
  - destruct (run r1 s g k) eqn:E.
    + injection H as ->. apply IH1 in E as (u & s' & g' & -> & E & _).
      exists u, s', g'. simpl. intuition.
    + apply IH2 in H as (u & s' & g' & -> & E' & _).
      exists u, s', g'. simpl. intuition.
  - destruct (run r1 s g k) eqn:E.
    + injection H as ->. apply IH1 in E as (u & s' & g' & -> & E & _).
      exists u, s', g'. simpl. intuition.
    + exists [], s, g. simpl. intuition.
  - apply IH1 in H as (u & s' & g' & -> & H & M).
    eexists u, s', _. repeat split; [exact H|exact M].
  - destruct (at_end s); [|discriminate]. exists [], s, g. simpl. intuition.
Qed.

(** A text without one of the literal characters of [r] is refused. *)
Lemma run_lacks r s g k c :
  In c (must r) -> ~ In c s -> run r s g k = None.
Proof.
  intros Hc Hs. destruct (run r s g k) as [x|] eqn:E; [|reflexivity].
  apply run_consumes in E as (u & s' & g' & -> & _ & M).
  exfalso. apply Hs. apply in_or_app. left. auto.
Qed.

Lemma re_match_lacks r s c : In c (must r) -> ~ In c s -> re_match r s = None.
Proof. apply run_lacks. Qed.

(* ================================================================== *)
(** ** The dispatcher as a whole *)
(* ================================================================== *)

Lemma match_prefix l r s :
  startswith l s = false -> re_match (lit l >> r) s = None.
Proof. intros H. unfold re_match. now rewrite run_lit_startswith, H. Qed.

Lemma not_df_unrecognized s :
  startswith "df.groupby(" s = false ->
  startswith "df.sort_values(" s = false ->
  startswith "df[" s = false ->
  unrecognized s.
Proof.
  intros H1 H2 H3. unfold unrecognized.
  repeat split; now apply match_prefix.
Qed.

(** X1.  An input that, once stripped, opens with none of df.groupby( ,
    df.sort_values( and df[ is refused: the name df is fixed, and so are
    the two methods. *)
Theorem only_df_is_recognised code table :
  startswith "df.groupby(" (strip code) = false ->
  startswith "df.sort_values(" (strip code) = false ->
  startswith "df[" (strip code) = false ->
  python_to_sql code table = Returns ERROR_MSG.
Proof.
  intros H1 H2 H3.
  destruct (not_df_unrecognized _ H1 H2 H3) as (E1 & E2 & E3 & E4 & E5 & E6).
  unfold python_to_sql. now rewrite E1, E2, E3, E4, E5, E6.
Qed.

(** A frame on another name, a blank input and the empty input. *)
Lemma only_df_is_recognised_witness :
  python_to_sql "data['age']" employees = Returns ERROR_MSG /\
  python_to_sql "   " employees = Returns ERROR_MSG /\
  python_to_sql "" employees = Returns ERROR_MSG.
Proof.
  exact (conj (only_df_is_recognised "data['age']" employees
                 eq_refl eq_refl eq_refl)
           (conj (only_df_is_recognised "   " employees eq_refl eq_refl eq_refl)
                 (only_df_is_recognised "" employees eq_refl eq_refl eq_refl))).
Defined.

(** X2.  Blanks before and after the input change nothing. *)
Theorem surrounding_blanks_ignored lead code tail table :
  blank lead = true -> blank tail = true ->
  python_to_sql (lead ++ code ++ tail) table = python_to_sql code table.
Proof.
  intros Hl Ht. unfold python_to_sql. now rewrite strip_surrounded.
Qed.

Lemma surrounding_blanks_ignored_witness :
  blank "  " = true /\ blank [newline] = true /\
  python_to_sql ("  " ++ "df['x'].std()" ++ [newline]) employees
  = python_to_sql "df['x'].std()" employees.
Proof.
  refine (conj eq_refl (conj eq_refl _)).
  exact (surrounding_blanks_ignored "  " "df['x'].std()" [newline] employees
           eq_refl eq_refl).
Defined.

Ltac same_text :=
  cbn; repeat (rewrite <- app_assoc; cbn); reflexivity.

(** X3.  The result is the sentinel exactly when no template matches the
    stripped input, and otherwise a text that opens with SELECT and
    closes with a semicolon. *)
Theorem select_or_sentinel code table :
  (unrecognized (strip code) /\
   python_to_sql code table = Returns ERROR_MSG)
  \/
  (~ unrecognized (strip code) /\
   exists body, python_to_sql code table = Returns ("SELECT " ++ body ++ ";")).
Proof.
  unfold unrecognized, python_to_sql.
  destruct (re_match pat_groupby _) as [m|] eqn:E1.
  { right. split; [intros (H & _); discriminate|].
    apply three_groups in E1 as (a & b & c & ->);
      [|reflexivity|simpl; tauto..]. cbn.
    exists (a ++ ", " ++ sql_func c ++ "(" ++ b ++ ") FROM " ++ table ++
            " GROUP BY " ++ a).
    same_text. }
  destruct (re_match pat_sort _) as [m|] eqn:E2.
  { right. split; [intros (_ & H & _); discriminate|].
    apply two_groups_first in E2 as (a & o & ->);
      [|reflexivity|simpl; tauto]. cbn.
    exists ("* FROM " ++ table ++ " ORDER BY " ++ a ++ " " ++
            (if pyval_eqb o "False" then "DESC" else "ASC")).
    same_text. }
  destruct (re_match pat_chained _) as [m|] eqn:E3.
  { right. split; [intros (_ & _ & H & _); discriminate|].
    apply three_groups in E3 as (a & b & c & ->);
      [|reflexivity|simpl; tauto..]. cbn.
    exists (sql_func c ++ "(" ++ b ++ ") FROM " ++ table ++ " WHERE " ++
            replace_series_refs a).
    same_text. }
  destruct (re_match pat_filter _) as [m|] eqn:E4.
  { right. split; [intros (_ & _ & _ & H & _); discriminate|].
    apply first_group in E4 as (a & ->);
      [|simpl; lia|simpl; tauto]. cbn.
    exists ("* FROM " ++ table ++ " WHERE " ++ replace_series_refs a).
    same_text. }
  destruct (re_match pat_col_agg _) as [m|] eqn:E5.
  { right. split; [intros (_ & _ & _ & _ & H & _); discriminate|].
    apply two_groups in E5 as (a & b & ->);
      [|reflexivity|simpl; tauto..]. cbn.
    exists (sql_func b ++ "(" ++ a ++ ") FROM " ++ table).
    same_text. }
  destruct (re_match pat_col _) as [m|] eqn:E6.
  { right. split; [intros (_ & _ & _ & _ & _ & H); discriminate|].
    exists (fmt (group m 1) ++ " FROM " ++ table).
    same_text. }
  left. auto 10.
Qed.

(* ================================================================== *)
(** ** More on the filter template *)
(* ================================================================== *)

(** The condition of the filter template is everything between the
    first opening and the last closing bracket. *)
Lemma match_filter_any cond tail :
  one_line cond = true -> blank tail = true ->
  re_match pat_filter (filter_text cond tail) = Some ([Some cond], []).
Proof.
  intros H1 Ht. unfold re_match, pat_filter, filter_text.
  rewrite run_lit_seq, run_seq. apply run_dot_group_last; [assumption| |].
  - apply hopeless_end; [apply wants_rbracket_lit|].
    now apply blank_no_rbracket.
  - rewrite run_lit_seq, run_seq. rewrite <- (app_nil_r tail).
    apply run_blanks_ok; [assumption|exact I|reflexivity].
Qed.

(** A quoted identifier, read off the text. *)
Lemma run_quoted_exact n g (K : kont) s :
  run (quoted n) s g K
  = match s with
    | [] => None
    | q1 :: s1 =>
        if is_quote q1 then
          match take_while is_word s1, drop_while is_word s1 with
          | _ :: _, q2 :: rest =>
              if is_quote q2
              then K rest (set_group n (take_while is_word s1) g)
              else None
          | _, _ => None
          end
        else None
    end.
Proof.
  unfold quoted. destruct s as [|q1 s1]; [reflexivity|].
  rewrite run_seq, run_cls_cons. destruct (is_quote q1); [|reflexivity].
  rewrite run_seq, run_grp_plus_span.
  - destruct (take_while is_word s1) as [|w0 w]; [reflexivity|].
    destruct (drop_while is_word s1) as [|q2 rest]; reflexivity.
  - intros c t g' Hc. cbn. now rewrite (word_not_quote c Hc).
Qed.

Lemma at_end_blank s : at_end s = true -> blank s = true.
Proof.
  destruct s as [|c [|d s]]; try discriminate; [reflexivity|].
  simpl. intros H. apply Ascii.eqb_eq in H. now subst c.
Qed.

(** What the column select template matches. *)
Lemma match_col_inv s m :
  re_match pat_col s = Some m ->
  exists q tail,
    quoted_ok q = true /\ blank tail = true /\
    s = filter_text (quoted_text q []) tail.
Proof.
  unfold re_match, pat_col. rewrite run_lit_startswith.
  destruct (startswith "df[" s) eqn:E; [|discriminate].
  apply startswith_inv in E as [t ->]. cbn [length skipn app].
  rewrite run_seq, run_quoted_exact.
  destruct t as [|q1 s1]; [discriminate|].
  destruct (is_quote q1) eqn:Hq1; [|discriminate].
  pose proof (take_drop_while is_word s1) as Es.
  pose proof (take_while_all is_word s1) as Hw.
  destruct (take_while is_word s1) as [|w0 w]; [discriminate|].
  destruct (drop_while is_word s1) as [|q2 rest]; [discriminate|].
  destruct (is_quote q2) eqn:Hq2; [|discriminate].
  rewrite run_lit_startswith.
  destruct (startswith "]" rest) eqn:E; [|discriminate].
  apply startswith_inv in E as [tail ->]. cbn [length skipn app].
  cbn [run]. intros H.
  apply star_k_some_split in H as (a & b & -> & Ha & H).
  destruct (at_end b) eqn:Hb; [|discriminate].
  exists (Quoted q1 (w0 :: w) q2), (a ++ b).
  unfold quoted_ok, filter_text, quoted_text. cbn [q_open q_name q_close ident].
  rewrite Hq1, Hq2, Hw, blank_app. unfold blank at 1. rewrite Ha.
  rewrite (at_end_blank b Hb). repeat split.
  rewrite <- Es. cbn. now rewrite <- !app_assoc.
Qed.

(** X4.  Whatever the column select template matches, the filter template
    matches too; as the filter comes first, the branch of the column
    select is never taken. *)
Theorem col_template_shadowed s :
  re_match pat_filter s = None -> re_match pat_col s = None.
Proof.
  intros H. destruct (re_match pat_col s) as [m|] eqn:E; [|reflexivity].
  apply match_col_inv in E as (q & tail & Hq & Ht & ->).
  rewrite match_filter_any in H; [discriminate| |assumption].
  now apply quoted_one_line.
Qed.

(** A column aggregate is refused by the filter template, and so by
    the column select template. *)
Lemma col_template_shadowed_witness :
  re_match pat_filter "df['x'].std()" = None /\
  re_match pat_col "df['x'].std()" = None.
Proof.
  refine (conj eq_refl _).
  exact (col_template_shadowed "df['x'].std()" eq_refl).
Defined.

(** X5.  A filter on one line, with any condition that holds no dot or
    holds no opening parenthesis, is translated to
    SELECT * FROM table WHERE cond; with the condition normalized.  The
    condition may hold brackets of its own. *)
Theorem filter_translated lead cond tail table :
  blank lead = true -> one_line cond = true -> blank tail = true ->
  ~ In "."%char cond \/ ~ In "("%char cond ->
  python_to_sql (lead ++ filter_text cond tail) table
  = Returns ("SELECT * FROM " ++ table ++ " WHERE " ++
             replace_series_refs cond ++ ";").
Proof.
  intros Hl H1 Ht Hc. unfold python_to_sql. rewrite strip_filter by assumption.
  replace (re_match pat_groupby _) with (@None result) by reflexivity.
  replace (re_match pat_sort _) with (@None result) by reflexivity.
  assert (E : re_match pat_chained (filter_text cond []) = None).
  { destruct Hc as [Hc|Hc].
    - apply (re_match_lacks _ _ "."%char); [cbn; tauto|].
      unfold filter_text. rewrite app_nil_r. intros Hin. cbn in Hin.
      destruct Hin as [?|[?|[?|Hin]]]; try discriminate.
      apply in_app_or in Hin as [Hin|[?|[]]]; [contradiction|discriminate].
    - apply (re_match_lacks _ _ "("%char); [cbn; tauto|].
      unfold filter_text. rewrite app_nil_r. intros Hin. cbn in Hin.
      destruct Hin as [?|[?|[?|Hin]]]; try discriminate.
      apply in_app_or in Hin as [Hin|[?|[]]]; [contradiction|discriminate]. }
  rewrite E, match_filter_any by (assumption || reflexivity). reflexivity.
Qed.

(** The filter of the module's docstring, and one with a literal that
    holds a dot. *)
Lemma filter_translated_witness :
  python_to_sql " df[(df['age'] > 30) & (df['city'] == 'Chennai')] " "people"
  = Returns "SELECT * FROM people WHERE (age > 30) AND (city = 'Chennai');" /\
  python_to_sql "df[df['price'] >= 9.5]" "sales"
  = Returns "SELECT * FROM sales WHERE price >= 9.5;".
Proof.
  split.
  - refine (filter_translated " "
              "(df['age'] > 30) & (df['city'] == 'Chennai')" " " "people"
              eq_refl eq_refl eq_refl (or_introl _)).
    cbn. intros H. repeat destruct H as [H|H]; try discriminate H. exact H.
  - refine (filter_translated "" "df['price'] >= 9.5" "" "sales"
              eq_refl eq_refl eq_refl (or_intror _)).
    cbn. intros H. repeat destruct H as [H|H]; try discriminate H. exact H.
Defined.

(* ================================================================== *)
(** ** More on the condition normalizer *)
(* ================================================================== *)

Lemma unmarked_app a b : unmarked a -> unmarked b -> unmarked (a ++ b).
Proof.
  intros Ha Hb x Hx Hin. apply in_app_or in Hin as [Hin|Hin].
  - now apply (Ha x).
  - now apply (Hb x).
Qed.

Lemma unmarked_unchanged s : unmarked s -> replace_series_refs s = s.
Proof.
  intros H. rewrite replace_series_refs_spec. unfold normalize_amended, normalize.
  rewrite bare_refs_absent by (apply H; cbn; tauto).
  rewrite (str_replace_absent "==" "=" s "="%char);
    [|cbn; tauto|apply H; cbn; tauto].
  rewrite (str_replace_absent "&" "AND" s "&"%char);
    [|cbn; tauto|apply H; cbn; tauto].
  rewrite (str_replace_absent "|" "OR" s "|"%char);
    [|cbn; tauto|apply H; cbn; tauto].
  apply (str_replace_absent "df." "" s "."%char);
    [cbn; tauto|apply H; cbn; tauto].
Qed.

(** X6.  A condition with none of the characters [ = & | . comes back
    unchanged. *)
Theorem normalizer_leaves_unmarked condition :
  unmarked condition ->
  _replace_series_refs (Some condition) = Returns condition.
Proof.
  intros H. cbn [_replace_series_refs]. f_equal. now apply unmarked_unchanged.
Qed.

Ltac not_in_literal :=
  cbn; intros H; repeat destruct H as [H|H]; try discriminate H; exact H.

Lemma normalizer_leaves_unmarked_witness :
  _replace_series_refs (Some "age > 30 AND name <> 'Bo'")
  = Returns "age > 30 AND name <> 'Bo'".
Proof.
  apply normalizer_leaves_unmarked. intros x Hx. cbn in Hx.
  repeat destruct Hx as [<-|Hx]; try contradiction; not_in_literal.
Defined.

(** Skipping and scanning. *)
Lemma scan_skip find : forall s k, scan find k s = scan find 0 (skipn k s).
Proof.
  induction s as [|c s IH]; intros [|k]; try reflexivity.
  cbn [scan skipn]. apply IH.
Qed.

Lemma scan_head find used new rest :
  used <> [] -> find (used ++ rest) = Some (new, rest) ->
  scan find 0 (used ++ rest) = new ++ scan find 0 rest.
Proof.
  intros Hne H. destruct used as [|c u]; [congruence|].
  cbn [app scan]. cbn [app] in H. rewrite H. f_equal.
  rewrite scan_skip. f_equal. cbn [length]. rewrite length_app.
  replace (S (length u + length rest) - length rest - 1) with (length u) by lia.
  apply skipn_length_app.
Qed.

Lemma take_while_app p w r :
  forallb p w = true -> halts p r -> take_while p (w ++ r) = w.
Proof.
  intros Hw Hr. induction w as [|c w IH]; simpl in *.
  - destruct r as [|d r]; [reflexivity|]. simpl in *. now rewrite Hr.
  - apply andb_true_iff in Hw as [Hc Hw]. now rewrite Hc, IH.
Qed.

Lemma drop_while_app p w r :
  forallb p w = true -> halts p r -> drop_while p (w ++ r) = r.
Proof.
  intros Hw Hr. induction w as [|c w IH]; simpl in *.
  - destruct r as [|d r]; [reflexivity|]. simpl in *. now rewrite Hr.
  - apply andb_true_iff in Hw as [Hc Hw]. now rewrite Hc, IH.
Qed.

(** A reference at the head of a text is found, whatever follows. *)
Lemma series_ref_head q rest :
  quoted_ok q = true ->
  series_ref false ("df[" ++ quoted_text q ("]" ++ rest)) = Some (q_name q, rest).
Proof.
  unfold quoted_ok, quoted_text, series_ref. intros H. split_ok.
  cbn [startswith app Ascii.eqb Bool.eqb andb skipn].
  assert (Hh : halts is_word ([q_close q] ++ "]" ++ rest))
    by (simpl; now apply quote_not_word).
  rewrite take_while_app, drop_while_app
    by (assumption || now apply ident_forall).
  destruct (q_name q) as [|w0 w] eqn:E; [discriminate|].
  cbn [app]. rewrite H, H0. reflexivity.
Qed.

Lemma bare_refs_head q rest :
  quoted_ok q = true ->
  bare_refs false ("df[" ++ quoted_text q ("]" ++ rest))
  = q_name q ++ bare_refs false rest.
Proof.
  intros Hq. unfold bare_refs.
  pose proof (scan_head (series_ref false)
                ("df[" ++ [q_open q] ++ q_name q ++ [q_close q] ++ "]")
                (q_name q) rest) as H.
  unfold quoted_text. rewrite <- !app_assoc in H. cbn [app] in H |- *.
  apply H; [discriminate|]. now apply (series_ref_head q rest).
Qed.

Lemma word_unmarked w : forallb is_word w = true -> unmarked w.
Proof.
  intros H x Hx Hin. rewrite forallb_forall in H. specialize (H x Hin).
  cbn in Hx. repeat destruct Hx as [<-|Hx]; try discriminate H. contradiction.
Qed.

(** X7.  A reference followed by a text with none of the characters
    [ = & | . becomes the bare field followed by that text. *)
Theorem normalizer_bares_reference q rest :
  quoted_ok q = true -> unmarked rest ->
  _replace_series_refs (Some ("df[" ++ quoted_text q ("]" ++ rest)))
  = Returns (q_name q ++ rest).
Proof.
  intros Hq Hr. cbn [_replace_series_refs]. f_equal.
  assert (Hu : unmarked (q_name q ++ rest)).
  { apply unmarked_app; [|assumption]. apply word_unmarked.
    unfold quoted_ok in Hq. split_ok. now apply ident_forall. }
  rewrite replace_series_refs_spec. unfold normalize_amended, normalize.
  rewrite bare_refs_head by assumption.
  rewrite (bare_refs_absent false rest) by (apply Hr; cbn; tauto).
  rewrite (str_replace_absent "==" "=" _ "="%char);
    [|cbn; tauto|apply Hu; cbn; tauto].
  rewrite (str_replace_absent "&" "AND" _ "&"%char);
    [|cbn; tauto|apply Hu; cbn; tauto].
  rewrite (str_replace_absent "|" "OR" _ "|"%char);
    [|cbn; tauto|apply Hu; cbn; tauto].
  apply (str_replace_absent "df." "" _ "."%char);
    [cbn; tauto|apply Hu; cbn; tauto].
Qed.

Lemma normalizer_bares_reference_witness :
  _replace_series_refs (Some "df['age'] > 30") = Returns "age > 30".
Proof.
  apply (normalizer_bares_reference (Quoted squote "age" squote) " > 30");
    [reflexivity|].
  intros x Hx. cbn in Hx.
  repeat destruct Hx as [<-|Hx]; try contradiction; not_in_literal.
Defined.

(** *** Operators left in the result *)

(** A character of the scan's result comes from the text or from a
    replacement. *)
Lemma scan_In find x : forall s k,
  In x (scan find k s) ->
  In x s \/ exists t new rest, find t = Some (new, rest) /\ In x new.
Proof.
  induction s as [|c s IH]; intros [|k] H; cbn [scan] in H;
    try contradiction.
  - destruct (find (c :: s)) as [[new rest]|] eqn:E.
    + apply in_app_or in H as [H|H]; [right; eauto|].
      apply IH in H as [H|H]; [left; now right|now right].
    + destruct H as [<-|H]; [left; now left|].
      apply IH in H as [H|H]; [left; now right|now right].
  - apply IH in H as [H|H]; [left; now right|now right].
Qed.

Lemma str_replace_keeps_out x old new s :
  old <> [] -> ~ In x s -> ~ In x new -> ~ In x (str_replace old new s).
Proof.
  intros Ho Hs Hn H. destruct old as [|o old]; [congruence|].
  unfold str_replace in H. apply scan_In in H as [H|(t & new' & rest & E & H)].
  - contradiction.
  - unfold occurrence in E. destruct (startswith (o :: old) t); [|discriminate].
    injection E as <- _. contradiction.
Qed.

Lemma replace_char_gone x new s :
  ~ In x new -> ~ In x (str_replace [x] new s).
Proof.
  intros Hn. unfold str_replace. induction s as [|c s IH]; [auto|].
  cbn [scan]. unfold occurrence at 1. cbn [startswith].
  rewrite andb_true_r. destruct (Ascii.eqb x c) eqn:E.
  - cbn [length skipn]. rewrite Nat.sub_succ_l, Nat.sub_diag by lia.
    cbn [Nat.sub]. intros H. apply in_app_or in H as [H|H]; auto.
  - intros [H|H]; [|auto]. subst c. now rewrite Ascii.eqb_refl in E.
Qed.

(** X8.  No & and no | is left in a normalized condition. *)
Theorem normalizer_removes_operators condition out :
  _replace_series_refs (Some condition) = Returns out ->
  ~ In "&"%char out /\ ~ In "|"%char out.
Proof.
  cbn [_replace_series_refs]. intros H. injection H as <-.
  unfold replace_series_refs. split.
  - apply str_replace_keeps_out; [discriminate| |auto].
    apply str_replace_keeps_out; [discriminate| |not_in_literal].
    apply (replace_char_gone "&"%char "AND"). not_in_literal.
  - apply str_replace_keeps_out; [discriminate| |auto].
    apply (replace_char_gone "|"%char "OR"). not_in_literal.
Qed.

Lemma normalizer_removes_operators_witness :
  ~ In "&"%char "(a > 1) AND (b = 2) OR c" /\
  ~ In "|"%char "(a > 1) AND (b = 2) OR c".
Proof.
  exact (normalizer_removes_operators "(a > 1) & (b == 2) | c"
           "(a > 1) AND (b = 2) OR c" eq_refl).
Defined.

(* ================================================================== *)
(** ** More on [_clean_quotes] *)
(* ================================================================== *)

(** [strip] takes blanks off both ends and nothing else. *)
Lemma lstrip_suffix s : exists a, s = a ++ lstrip s /\ blank a = true.
Proof.
  unfold blank. induction s as [|c s (a & Ha & Hb)]; simpl.
  - now exists [].
  - destruct (is_space c) eqn:Hc.
    + exists (c :: a). simpl. rewrite Hc, Hb. split; [congruence|reflexivity].
    + now exists [].
Qed.

Lemma strip_inside s :
  exists a b, s = a ++ strip s ++ b /\ blank a = true /\ blank b = true.
Proof.
  destruct (lstrip_suffix s) as (a & Ha & Hba).
  destruct (rstrip_prefix (lstrip s)) as (b & Hb & Hbb).
  exists a, b. unfold strip. rewrite <- Hb. auto.
Qed.

Lemma middle_inside (t : string) : exists a b, t = a ++ removelast (tl t) ++ b.
Proof.
  destruct t as [|x t]; [now exists [], []|]. cbn [tl].
  destruct t as [|y t]; [now exists [x], []|].
  exists [x], [last (y :: t) x]. cbn [app]. f_equal.
  apply app_removelast_last. discriminate.
Qed.

(** X9.  The result of [_clean_quotes] is a part of its argument, in one
    piece: nothing is added and nothing reordered. *)
Theorem clean_quotes_inside s :
  exists a b, s = a ++ _clean_quotes s ++ b.
Proof.
  destruct (strip_inside s) as (a & b & E & _).
  unfold _clean_quotes.
  destruct (startswith "'" (strip s) && endswith "'" (strip s)
            || startswith [dquote] (strip s) && endswith [dquote] (strip s)).
  - destruct (middle_inside (strip s)) as (a' & b' & E').
    exists (a ++ a'), (b' ++ b). rewrite E at 1. rewrite E' at 1.
    now rewrite <- !app_assoc.
  - now exists a, b.
Qed.

(* ================================================================== *)
(** ** The table name and the aggregate name *)
(* ================================================================== *)

(** X10.  The table name is never looked at: either the input is refused
    for every table name, or the result is one fixed text around the
    table name, put in once and as it is. *)
Theorem table_name_verbatim code :
  (forall table, python_to_sql code table = Returns ERROR_MSG) \/
  (exists before after,
      forall table, python_to_sql code table = Returns (before ++ table ++ after)).
Proof.
  unfold python_to_sql.
  destruct (re_match pat_groupby _) as [m|] eqn:E1.
  { right. apply three_groups in E1 as (a & b & c & ->);
      [|reflexivity|simpl; tauto..].
    exists ("SELECT " ++ a ++ ", " ++ sql_func c ++ "(" ++ b ++ ") FROM "),
           (" GROUP BY " ++ a ++ ";").
    intros table. same_text. }
  destruct (re_match pat_sort _) as [m|] eqn:E2.
  { right. apply two_groups_first in E2 as (a & o & ->);
      [|reflexivity|simpl; tauto].
    exists "SELECT * FROM ",
           (" ORDER BY " ++ a ++ " " ++
            (if pyval_eqb o "False" then "DESC" else "ASC") ++ ";").
    intros table. same_text. }
  destruct (re_match pat_chained _) as [m|] eqn:E3.
  { right. apply three_groups in E3 as (a & b & c & ->);
      [|reflexivity|simpl; tauto..].
    exists ("SELECT " ++ sql_func c ++ "(" ++ b ++ ") FROM "),
           (" WHERE " ++ replace_series_refs a ++ ";").
    intros table. same_text. }
  destruct (re_match pat_filter _) as [m|] eqn:E4.
  { right. apply first_group in E4 as (a & ->);
      [|simpl; lia|simpl; tauto].
    exists "SELECT * FROM ", (" WHERE " ++ replace_series_refs a ++ ";").
    intros table. same_text. }
  destruct (re_match pat_col_agg _) as [m|] eqn:E5.
  { right. apply two_groups in E5 as (a & b & ->);
      [|reflexivity|simpl; tauto..].
    exists ("SELECT " ++ sql_func b ++ "(" ++ a ++ ") FROM "), ";".
    intros table. same_text. }
  destruct (re_match pat_col _) as [m|] eqn:E6.
  { right. exists ("SELECT " ++ fmt (group m 1) ++ " FROM "), ";".
    intros table. same_text. }
  now left.
Qed.

Lemma upper_char_idem c : upper_char (upper_char c) = upper_char c.
Proof. all_chars c; reflexivity. Qed.

Lemma upper_idem s : upper (upper s) = upper s.
Proof.
  unfold upper. rewrite map_map. apply map_ext. apply upper_char_idem.
Qed.

(** X11.  The aggregate name put in the SQL is in upper case, whether it
    comes from the alias table or not. *)
Theorem sql_func_upper_case func : upper (sql_func func) = sql_func func.
Proof.
  unfold sql_func, FUNC_MAP. cbn [dict_get].
  repeat match goal with
         | |- context [if str_eqb ?k func then _ else _] =>
             destruct (str_eqb k func); [reflexivity|]
         end.
  apply upper_idem.
Qed.

(* ================================================================== *)
(** ** What the groups can hold *)
(* ================================================================== *)

Lemma kept_set_group P n v g :
  forallb P v = true -> kept P g -> kept P (set_group n v g).
Proof.
  intros Hv Hg. destruct n as [|i]; [exact Hg|]. simpl.
  revert i Hg. induction g as [|x g IH]; intros i Hg; [destruct i; intros w Hw; destruct Hw|].
  assert (Hg' : kept P g) by (intros w Hw; apply Hg; now right).
  destruct i as [|i]; simpl; intros w [Hw|Hw].
  - injection Hw as <-. exact Hv.
  - now apply Hg'.
  - apply Hg. now left.
  - now apply (IH i Hg').
Qed.

Lemma run_only P r : forall s g k x,
  only P r ->
  run r s g k = Some x ->
  exists u s' g',
    s = u ++ s' /\ forallb P u = true /\ (kept P g -> kept P g') /\
    k s' g' = Some x.
Proof.
  induction r as [|c|p|p|r1 IH1 r2 IH2|r1 IH1 r2 IH2|r1 IH1|n r1 IH1|];
    intros s g k x O H; cbn [run] in H; cbn [only] in O.
  - now exists [], s, g.
  - destruct s as [|a s]; [discriminate|].
    destruct (Ascii.eqb a c) eqn:E; [|discriminate].
    apply Ascii.eqb_eq in E. subst a.
    exists [c], s, g. simpl. now rewrite O.
  - destruct s as [|a s]; [discriminate|].
    destruct (p a) eqn:E; [|discriminate].
    exists [a], s, g. simpl. now rewrite (O a E).
  - apply star_k_some_split in H as (a & b & -> & Ha & H).
    exists a, b, g. repeat split; auto.
    apply forallb_forall. intros c Hc. apply O.
    now apply (proj1 (forallb_forall p a) Ha).
  - destruct O as [O1 O2].
    apply (IH1 _ _ _ _ O1) in H as (u1 & s1 & g1 & -> & P1 & K1 & H).
    apply (IH2 _ _ _ _ O2) in H as (u2 & s2 & g2 & -> & P2 & K2 & H).
    exists (u1 ++ u2), s2, g2. rewrite <- app_assoc, forallb_app, P1, P2.
    repeat split; auto.
  - destruct O as [O1 O2]. destruct (run r1 s g k) eqn:E.
    + injection H as ->. now apply (IH1 _ _ _ _ O1) in E.
    + now apply (IH2 _ _ _ _ O2) in H.
  - destruct (run r1 s g k) eqn:E.
    + injection H as ->. now apply (IH1 _ _ _ _ O) in E.
    + now exists [], s, g.
  - apply (IH1 _ _ _ _ O) in H as (u & s' & g' & -> & Pu & K & H).
    rewrite consumed_app in H.
    eexists u, s', _. repeat split; [exact Pu| |exact H].
    intros Hg. apply kept_set_group; auto.
  - destruct (at_end s); [|discriminate]. now exists [], s, g.
Qed.

Lemma run_tame P r : forall s g k x,
  tame P r -> kept P g ->
  run r s g k = Some x ->
  exists s' g', kept P g' /\ k s' g' = Some x.
Proof.
  induction r as [|c|p|p|r1 IH1 r2 IH2|r1 IH1 r2 IH2|r1 IH1|n r1 IH1|];
    intros s g k x T G H; cbn [run] in H; cbn [tame] in T.
  - now exists s, g.
  - destruct s as [|a s]; [discriminate|].
    destruct (Ascii.eqb a c); [|discriminate]. now exists s, g.
  - destruct s as [|a s]; [discriminate|].
    destruct (p a); [|discriminate]. now exists s, g.
  - apply star_k_some_split in H as (a & b & -> & _ & H). now exists b, g.
  - destruct T as [T1 T2].
    apply (IH1 _ _ _ _ T1 G) in H as (s1 & g1 & G1 & H).
    now apply (IH2 _ _ _ _ T2 G1) in H.
  - destruct T as [T1 T2]. destruct (run r1 s g k) eqn:E.
    + injection H as ->. now apply (IH1 _ _ _ _ T1 G) in E.
    + now apply (IH2 _ _ _ _ T2 G) in H.
  - destruct (run r1 s g k) eqn:E.
    + injection H as ->. now apply (IH1 _ _ _ _ T G) in E.
    + now exists s, g.
  - apply (run_only P _ _ _ _ _ T) in H as (u & s' & g' & -> & Pu & K & H).
    rewrite consumed_app in H.
    eexists s', _. split; [|exact H]. apply kept_set_group; auto.
  - destruct (at_end s); [|discriminate]. now exists s, g.
Qed.

Lemma kept_none P n : kept P (repeat None n).
Proof. intros v Hv. apply repeat_spec in Hv. discriminate. Qed.

Lemma re_match_tame P r s m :
  tame P r -> re_match r s = Some m -> kept P (groups m).
Proof.
  intros T H. unfold re_match in H.
  apply (run_tame P _ _ _ _ _ T (kept_none P _)) in H as (s' & g' & G & H).
  injection H as <-. exact G.
Qed.

Lemma tame_groupby : tame is_word pat_groupby.
Proof. cbn. repeat split; auto. Qed.

Lemma tame_sort : tame is_word pat_sort.
Proof. cbn. repeat split; auto. Qed.

Lemma tame_col_agg : tame is_word pat_col_agg.
Proof. cbn. repeat split; auto. Qed.

Ltac refuse_by_prefix :=
  repeat match goal with
         | |- context [re_match ?p ?s] =>
             replace (re_match p s) with (@None result)
               by (symmetry; apply match_prefix; reflexivity)
         end.

(** X12.  An input that opens with df.groupby( is refused or becomes a
    GROUP BY query whose key, column and aggregate name, all taken from
    the input, hold letters, digits and underscores only. *)
Theorem groupby_output_form code table :
  startswith "df.groupby(" (strip code) = true ->
  python_to_sql code table = Returns ERROR_MSG \/
  exists gcol target_col func,
    forallb is_word gcol = true /\ forallb is_word target_col = true /\
    forallb is_word func = true /\
    python_to_sql code table =
      Returns ("SELECT " ++ gcol ++ ", " ++ sql_func func ++ "(" ++
               target_col ++ ") FROM " ++ table ++ " GROUP BY " ++ gcol ++ ";").
Proof.
  intros H. apply startswith_inv in H as [t H].
  unfold python_to_sql. rewrite H.
  destruct (re_match pat_groupby _) as [m|] eqn:E1.
  - right. pose proof (re_match_tame _ _ _ _ tame_groupby E1) as K.
    apply three_groups in E1 as (a & b & c & E);
      [|reflexivity|simpl; tauto..].
    rewrite E in K |- *. exists a, b, c.
    split; [|split; [|split]]; try (apply K; simpl; tauto). same_text.
  - left. refuse_by_prefix. reflexivity.
Qed.

Lemma groupby_output_form_witness :
  startswith "df.groupby(" (strip " df.groupby('dept')['pay'].mean() ") = true /\
  (python_to_sql " df.groupby('dept')['pay'].mean() " "staff" = Returns ERROR_MSG \/
   exists gcol target_col func,
     forallb is_word gcol = true /\ forallb is_word target_col = true /\
     forallb is_word func = true /\
     python_to_sql " df.groupby('dept')['pay'].mean() " "staff" =
       Returns ("SELECT " ++ gcol ++ ", " ++ sql_func func ++ "(" ++
                target_col ++ ") FROM " ++ "staff" ++ " GROUP BY " ++ gcol ++ ";")).
Proof.
  refine (conj eq_refl _).
  exact (groupby_output_form " df.groupby('dept')['pay'].mean() " "staff" eq_refl).
Defined.

(** X13.  An input that opens with df.sort_values( is refused or becomes
    an ORDER BY query on a column that holds letters, digits and
    underscores only, with the order ASC or DESC. *)
Theorem sort_output_form code table :
  startswith "df.sort_values(" (strip code) = true ->
  python_to_sql code table = Returns ERROR_MSG \/
  exists col order,
    forallb is_word col = true /\ (order = "ASC" \/ order = "DESC") /\
    python_to_sql code table =
      Returns ("SELECT * FROM " ++ table ++ " ORDER BY " ++ col ++ " " ++
               order ++ ";").
Proof.
  intros H. apply startswith_inv in H as [t H].
  unfold python_to_sql. rewrite H.
  replace (re_match pat_groupby _) with (@None result)
    by (symmetry; apply match_prefix; reflexivity).
  destruct (re_match pat_sort _) as [m|] eqn:E2.
  - right. pose proof (re_match_tame _ _ _ _ tame_sort E2) as K.
    apply two_groups_first in E2 as (a & o & E);
      [|reflexivity|simpl; tauto].
    rewrite E in K |- *.
    exists a, (if pyval_eqb o "False" then "DESC" else "ASC").
    split; [apply K; simpl; tauto|]. split; [|same_text].
    destruct (pyval_eqb o "False"); auto.
  - left. refuse_by_prefix. reflexivity.
Qed.

Lemma sort_output_form_witness :
  startswith "df.sort_values(" (strip "df.sort_values('pay', ascending=False)") = true /\
  (python_to_sql "df.sort_values('pay', ascending=False)" "staff" = Returns ERROR_MSG \/
   exists col order,
     forallb is_word col = true /\ (order = "ASC" \/ order = "DESC") /\
     python_to_sql "df.sort_values('pay', ascending=False)" "staff" =
       Returns ("SELECT * FROM " ++ "staff" ++ " ORDER BY " ++ col ++ " " ++
                order ++ ";")).
Proof.
  refine (conj eq_refl _).
  exact (sort_output_form "df.sort_values('pay', ascending=False)" "staff" eq_refl).
Defined.

(* ================================================================== *)
(** ** The ascending argument *)
(* ================================================================== *)

Lemma run_lit_none g k l : forall s,
  startswith l s = false -> run (lit l) s g k = None.
Proof.
  induction l as [|c l IH]; intros s H; [discriminate|].
  destruct s as [|x s]; [reflexivity|]. cbn [lit]. rewrite run_seq.
  cbn [run]. cbn [startswith] in H. rewrite Ascii.eqb_sym in H.
  destruct (Ascii.eqb x c); [|reflexivity]. now apply IH.
Qed.

Lemma space_not_quote c : is_space c = true -> is_quote c = false.
Proof.
  intros H. destruct (is_quote c) eqn:E; [|reflexivity].
  apply quote_not_space in E. congruence.
Qed.

Lemma run_quoted_text n g (K : kont) q rest :
  quoted_ok q = true ->
  run (quoted n) (quoted_text q rest) g K = K rest (set_group n (q_name q) g).
Proof.
  unfold quoted_ok, quoted_text. intros H. split_ok.
  rewrite run_quoted_exact. cbn [app]. rewrite H.
  assert (Hh : halts is_word ([q_close q] ++ rest))
    by (simpl; now apply quote_not_word).
  rewrite take_while_app, drop_while_app
    by (assumption || now apply ident_forall).
  destruct (q_name q) as [|w0 w] eqn:E; [discriminate|].
  cbn [app]. now rewrite H0.
Qed.

(** A value that is neither True nor False makes the optional group
    fail. *)
Lemma ascending_value_refused g k w1 w2 w3 w4 v :
  blank w1 = true -> blank w2 = true -> blank w3 = true -> blank w4 = true ->
  halts is_space v ->
  startswith "True" v = false -> startswith "False" v = false ->
  run ascending_body
      (w1 ++ "," ++ w2 ++ "ascending" ++ w3 ++ "=" ++ w4 ++ v) g k = None.
Proof.
  intros B1 B2 B3 B4 Hv HT HF. unfold ascending_body.
  rewrite run_seq, run_star_exact; [|assumption|halting|];
    [|intros c t Hc; cbn; now rewrite (class_neq is_space c _ Hc)].
  rewrite run_lit_seq, run_seq, run_star_exact; [|assumption|halting|];
    [|intros c t Hc; cbn; now rewrite (class_neq is_space c _ Hc)].
  rewrite run_lit_seq, run_seq, run_star_exact; [|assumption|halting|];
    [|intros c t Hc; cbn; now rewrite (class_neq is_space c _ Hc)].
  rewrite run_lit_seq, run_seq, run_star_exact; [|assumption|assumption|].
  - cbn [run]. rewrite !run_lit_none by assumption. reflexivity.
  - intros c t Hc. cbn.
    now rewrite !(class_neq is_space c _ Hc) by reflexivity.
Qed.

Lemma sort_value_refused pre q w1 w2 w3 w4 v :
  blank pre = true -> quoted_ok q = true ->
  blank w1 = true -> blank w2 = true -> blank w3 = true -> blank w4 = true ->
  halts is_space v ->
  startswith "True" v = false -> startswith "False" v = false ->
  re_match pat_sort
    ("df.sort_values(" ++ pre ++
     quoted_text q (w1 ++ "," ++ w2 ++ "ascending" ++ w3 ++ "=" ++ w4 ++ v))
  = None.
Proof.
  intros Bp Hq B1 B2 B3 B4 Hv HT HF. unfold re_match, pat_sort.
  fold ascending_body.
  rewrite run_lit_seq, run_seq.
  rewrite run_star_exact; [|assumption|now apply halts_quoted|];
    [|intros c t Hc; cbn; now rewrite (space_not_quote c Hc)].
  rewrite run_seq, run_quoted_text by assumption.
  rewrite run_seq, run_opt_skip by now apply ascending_value_refused.
  rewrite run_seq, run_star_exact; [reflexivity|assumption|halting|].
  intros c t Hc. cbn. now rewrite (class_neq is_space c _ Hc).
Qed.

(** X14.  In df.sort_values the value of ascending has to be the word
    True or the word False: with any other value the input is refused,
    no order is assumed. *)
Theorem sort_other_value_refused code pre q w1 w2 w3 w4 v table :
  blank pre = true -> quoted_ok q = true ->
  blank w1 = true -> blank w2 = true -> blank w3 = true -> blank w4 = true ->
  halts is_space v ->
  startswith "True" v = false -> startswith "False" v = false ->
  strip code =
    "df.sort_values(" ++ pre ++
    quoted_text q (w1 ++ "," ++ w2 ++ "ascending" ++ w3 ++ "=" ++ w4 ++ v) ->
  python_to_sql code table = Returns ERROR_MSG.
Proof.
  intros Bp Hq B1 B2 B3 B4 Hv HT HF E. unfold python_to_sql. rewrite E.
  replace (re_match pat_groupby _) with (@None result)
    by (symmetry; apply match_prefix; reflexivity).
  rewrite sort_value_refused by assumption.
  refuse_by_prefix. reflexivity.
Qed.

Lemma sort_other_value_refused_witness :
  strip "df.sort_values('pay', ascending = 0)" =
    "df.sort_values(" ++ "" ++
    quoted_text (Quoted "'" "pay" "'")
                ("" ++ "," ++ " " ++ "ascending" ++ " " ++ "=" ++ " " ++ "0)") /\
  python_to_sql "df.sort_values('pay', ascending = 0)" "staff" = Returns ERROR_MSG.
Proof.
  refine (conj eq_refl _).
  exact (sort_other_value_refused
           "df.sort_values('pay', ascending = 0)" "" (Quoted "'" "pay" "'")
           "" " " " " " " "0)" "staff"
           eq_refl eq_refl eq_refl eq_refl eq_refl eq_refl eq_refl eq_refl
           eq_refl eq_refl).
Defined.
